(** * tlogs/tree: kind resolution, paginated fetching and the ownership directory

    A shallow embedding of [tree/main.go].  Go strings are byte strings
    ([string]); Go maps are [gmap]s; a Go result [(T, error)] whose value slot
    matters on failure is a pair [T * option error]; the external Kubernetes
    client (discovery, get, list) is taken as data or as Section variables. *)

From Stdlib Require Import String Ascii ZArith Permutation.
From stdpp Require Import gmap strings list fin_maps.

(** ** Package [strings] *)

(** [strings.ToLower] on its ASCII fast path: the bytes ['A'..'Z'] are moved to
    ['a'..'z'] and every other byte is kept.  (On non-ASCII input Go maps whole
    runes with [unicode.ToLower]; those inputs are outside this model.) *)
Definition lower_byte (c : ascii) : ascii :=
  let n := nat_of_ascii c in
  if (65 <=? n)%nat && (n <=? 90)%nat then ascii_of_nat (n + 32) else c.

Fixpoint ToLower (s : string) : string :=
  match s with
  | EmptyString => EmptyString
  | String c rest => String (lower_byte c) (ToLower rest)
  end.

(** [strings.Join(elems, sep)]. *)
Fixpoint Join (elems : list string) (sep : string) : string :=
  match elems with
  | [] => ""
  | [x] => x
  | x :: rest => x +:+ sep +:+ Join rest sep
  end.

(** A string without the byte ['.']. *)
Fixpoint dotfree (s : string) : bool :=
  match s with
  | EmptyString => true
  | String c rest => negb (Ascii.eqb c ".") && dotfree rest
  end.

(** ** Kubernetes API types used by the program *)

(** [schema.GroupVersion]. *)
Record GroupVersion := { Group : string; Version : string }.

(** [schema.GroupVersionResource]. *)
Record GroupVersionResource :=
  { gvrGroup : string; gvrVersion : string; gvrResource : string }.

(** [metav1.APIResource], the fields the program reads. *)
Record APIResource := {
  Name : string;
  SingularName : string;
  Namespaced : bool;
  Kind : string;
  Verbs : list string;
  ShortNames : list string
}.

(** [metav1.APIResourceList]: one discovered group/version. *)
Record APIResourceList := {
  GroupVersionString : string;
  APIResources : list APIResource
}.

(** [types.UID]. *)
Abbreviation UID := string.

(** [metav1.OwnerReference]. *)
Record OwnerReference := {
  refKind : string;
  refName : string;
  refUID : UID
}.

(** [unstructured.Unstructured], seen through [GetUID] and
    [GetOwnerReferences]; [GetName] stands for the rest of the document. *)
Record Unstructured := {
  GetName : string;
  GetUID : UID;
  GetOwnerReferences : list OwnerReference
}.

(** [metav1.ListOptions] and [unstructured.UnstructuredList]. *)
Record ListOptions := { Limit : Z; Continue : string }.
Record UnstructuredList := { Items : list Unstructured; GetContinue : string }.

(** ** Errors

    One constructor per [fmt.Errorf] site of the program, holding the
    arguments of the format string; [External] is an error of the client
    library. *)
Inductive error :=
  | External (msg : string)
  | ErrFetchGroups (cause : error)
      (* "failed to fetch api groups from kubernetes: %w" *)
  | ErrParseGroupVersion (groupVersion : string) (cause : error)
      (* "%q cannot be parsed into groupversion: %w" *)
  | ErrKindNotFound (kind : string)
      (* "could not find api kind %q" *)
  | ErrAmbiguousKind (kind : string) (names : string)
      (* "ambiguous kind %q. use one of these as the KIND disambiguate: [%s]" *)
  | ErrGet (kind name : string) (cause : error)
      (* "failed to get %s/%s: %w" *)
  | ErrQueryObjects (cause : error)
      (* "error while querying api objects: %w" *)
  | ErrListing (gvr : GroupVersionResource) (cause : error).
      (* "listing resources failed (%s): %w" *)

(** ** Resource catalog *)

Record apiResource := { r : APIResource; gv : GroupVersion }.

Definition apiResource_zero : apiResource :=
  {| r := {| Name := ""; SingularName := ""; Namespaced := false; Kind := "";
             Verbs := []; ShortNames := [] |};
     gv := {| Group := ""; Version := "" |} |}.

Definition GVR (a : apiResource) : GroupVersionResource :=
  {| gvrGroup := Group (gv a); gvrVersion := Version (gv a);
     gvrResource := Name (r a) |}.

(** [resourceNameLookup] is [map[string][]apiResource]. *)
Record resourceMap := {
  rm_list : list apiResource;
  rm_m : gmap string (list apiResource)
}.

(** Indexing a Go map of slices: a missing key reads as the nil slice. *)
Definition at_key (m : gmap string (list apiResource)) (k : string)
  : list apiResource := default [] (m !! k).

Definition lookup (rm : resourceMap) (s : string) : list apiResource :=
  at_key (rm_m rm) (ToLower s).

Definition resources (rm : resourceMap) : list apiResource := rm_list rm.

Definition fullAPIName (a : apiResource) : string :=
  let sgv := GVR a in
  Join [gvrResource sgv; gvrVersion sgv; gvrGroup sgv] ".".

Fixpoint contains (v : list string) (s : string) : bool :=
  match v with
  | [] => false
  | vv :: rest => if String.eqb vv s then true else contains rest s
  end.

(** The singular base name chosen by [apiNames]. *)
Definition singularOf (a : APIResource) : string :=
  if String.eqb (SingularName a) "" then ToLower (Kind a) else SingularName a.

(** The three keys appended per base name, in the order of the source. *)
Definition qualified (gv : GroupVersion) (n : string) : list string :=
  [ n; Join [n; Group gv] "."; Join [n; Version gv; Group gv] "." ].

Definition apiNames (a : APIResource) (gv : GroupVersion) : list string :=
  let singularName := singularOf a in
  let pluralName := Name a in
  let shortNames := ShortNames a in
  let names := [singularName; pluralName] ++ shortNames in
  foldl (fun out n => out ++ qualified gv n) [] names.

(** [rm.m[name] = append(rm.m[name], v)]. *)
Definition register (v : apiResource) (m : gmap string (list apiResource))
    (name : string) : gmap string (list apiResource) :=
  <[name := at_key m name ++ [v]]> m.

(** One iteration of the inner loop of [findAPIs]. *)
Definition addResource (gv : GroupVersion) (rm : resourceMap)
    (apiRes : APIResource) : resourceMap :=
  if negb (contains (Verbs apiRes) "list") then rm
  else
    let v := {| r := apiRes; gv := gv |} in
    let names := apiNames apiRes gv in
    {| rm_m := foldl (register v) (rm_m rm) names;
       rm_list := rm_list rm ++ [v] |}.

Section Catalog.
(** [schema.ParseGroupVersion], from the apimachinery library. *)
Variable ParseGroupVersion : string -> error + GroupVersion.

(** The outer loop of [findAPIs], from the map built so far. *)
Fixpoint findAPIs_groups (resList : list APIResourceList) (rm : resourceMap)
  : error + resourceMap :=
  match resList with
  | [] => inr rm
  | group :: rest =>
      match ParseGroupVersion (GroupVersionString group) with
      | inl err => inl (ErrParseGroupVersion (GroupVersionString group) err)
      | inr gv =>
          findAPIs_groups rest (foldl (addResource gv) rm (APIResources group))
      end
  end.

(** [findAPIs]; [client] is what [ServerPreferredResources] returns. *)
Definition findAPIs (client : list APIResourceList * option error)
  : error + resourceMap :=
  match client with
  | (_, Some err) => inl (ErrFetchGroups err)
  | (resList, None) =>
      findAPIs_groups resList {| rm_list := []; rm_m := ∅ |}
  end.
End Catalog.

(** ** Kind resolver *)

(** [overrideType]: a Go [switch] has no fall-through, so a case whose
    lookups are all empty leaves the switch and reaches the final return. *)
Definition overrideType (kind : string) (v : resourceMap) : apiResource * bool :=
  let kind := ToLower kind in
  if bool_decide (kind ∈ ["svc"; "service"; "services"]) then
    match lookup v "service.v1." with
    | out0 :: _ => (out0, true)
    | [] => (apiResource_zero, false)
    end
  else if bool_decide (kind ∈ ["deploy"; "deployment"; "deployments"]) then
    match lookup v "deployment.v1.apps" with
    | out0 :: _ => (out0, true)
    | [] =>
        match lookup v "deployment.v1beta1.extensions" with
        | out0 :: _ => (out0, true)
        | [] => (apiResource_zero, false)
        end
    end
  else (apiResource_zero, false).

(** The resolution block of [run] (the [if]/[else] that assigns [api]). *)
Definition resolveKind (kind : string) (apis : resourceMap) : error + apiResource :=
  match overrideType kind apis with
  | (k, true) => inr k
  | (_, false) =>
      let apiResults := lookup apis kind in
      match apiResults with
      | [] => inl (ErrKindNotFound kind)
      | [a] => inr a
      | _ =>
          let names := foldl (fun names a => names ++ [fullAPIName a]) [] apiResults in
          inl (ErrAmbiguousKind kind (Join names ", "))
      end
  end.

(** ** Ownership directory *)

Record objectDirectory := {
  items : gmap UID Unstructured;
  ownership : gmap UID (gmap UID bool)
}.

(** The body of the inner loop of [newObjectDirectory]:
    create the owner's children map on first use, then mark the child. *)
Definition addOwner (child : UID) (own : gmap UID (gmap UID bool))
    (ownerRef : OwnerReference) : gmap UID (gmap UID bool) :=
  let own :=
    match own !! refUID ownerRef with
    | None => <[refUID ownerRef := ∅]> own
    | Some _ => own
    end in
  <[refUID ownerRef := <[child := true]> (default ∅ (own !! refUID ownerRef))]> own.

Definition addObject (v : objectDirectory) (obj : Unstructured) : objectDirectory :=
  {| items := <[GetUID obj := obj]> (items v);
     ownership := foldl (addOwner (GetUID obj)) (ownership v) (GetOwnerReferences obj) |}.

Definition newObjectDirectory (objs : list Unstructured) : objectDirectory :=
  foldl addObject {| items := ∅; ownership := ∅ |} objs.

(** [objs.ownership[x]]: a missing key reads as the nil map. *)
Definition childrenMap (d : objectDirectory) (x : UID) : gmap UID bool :=
  default ∅ (ownership d !! x).

(** The children set of [x]: the keys of [ownership[x]]. *)
Definition childrenOf (d : objectDirectory) (x : UID) : gset UID :=
  dom (childrenMap d x).

(** An object declares [x] among its owner references. *)
Definition declaresOwner (x : UID) (obj : Unstructured) : Prop :=
  x ∈ map refUID (GetOwnerReferences obj).

Global Instance declaresOwner_dec x obj : Decision (declaresOwner x obj).
Proof. unfold declaresOwner. apply _. Defined.

(** ** Object fetcher *)

Section ObjectFetcher.
(** The state of the API server, and the dynamic client's
    [Resource(gvr).Namespace(ns).List(ctx, opts)] as a transition on it. *)
Context {Server : Type}.
Variable List : GroupVersionResource -> string -> ListOptions -> Server ->
                Server * (error + UnstructuredList).

(** The [for] loop of [queryAPI], entered with the current [next] and [out].
    [fuel] bounds the number of page requests; [None] means the loop is
    still running when the bound is reached. *)
Fixpoint queryAPI_loop (fuel : nat) (api : apiResource) (ns : string)
    (next : string) (out : list Unstructured) (srv : Server)
  : option (Server * (list Unstructured * option error)) :=
  match fuel with
  | O => None
  | S fuel' =>
      let '(srv', resp) :=
        List (GVR api) ns {| Limit := 250; Continue := next |} srv in
      match resp with
      | inl err => Some (srv', ([], Some (ErrListing (GVR api) err)))
      | inr resp =>
          let out := out ++ Items resp in
          let next := GetContinue resp in
          if String.eqb next "" then Some (srv', (out, None))
          else queryAPI_loop fuel' api ns next out srv'
      end
  end.

Definition queryAPI (fuel : nat) (api : apiResource) (ns : string) (srv : Server)
  : option (Server * (list Unstructured * option error)) :=
  queryAPI_loop fuel api ns "" [] srv.

(** From state [srv], the server answers the requests of limit 250 that start
    at cursor [c] and follow the returned cursors with the pages [pages], and
    is left in state [srv']. *)
Fixpoint answers (gvr : GroupVersionResource) (ns : string) (srv : Server)
    (c : string) (pages : list UnstructuredList) (srv' : Server) : Prop :=
  match pages with
  | [] => srv' = srv
  | p :: rest =>
      exists srv1,
        List gvr ns {| Limit := 250; Continue := c |} srv = (srv1, inr p) /\
        answers gvr ns srv1 (GetContinue p) rest srv'
  end.

(** The cursor in hand after the pages [pages], starting from [c]. *)
Definition cursorAfter (c : string) (pages : list UnstructuredList) : string :=
  foldl (fun _ p => GetContinue p) c pages.
End ObjectFetcher.

(** ** Fleet fetcher *)

Section FleetFetcher.
(** [query a ns] is the value returned by the call [queryAPI(client, a, ns)]
    made by the goroutine dispatched for [a]. *)
Variable query : apiResource -> string -> list Unstructured * option error.

(** The resource types for which a goroutine is started. *)
Definition dispatched (apis : list apiResource) : list apiResource :=
  filter (fun api => Namespaced (r api) = true) apis.

(** The effect of one goroutine on the shared variables [out] and
    [errResult]: a store to [errResult], or an append under the mutex. *)
Definition worker (ns : string) (shared : list Unstructured * option error)
    (a : apiResource) : list Unstructured * option error :=
  let '(out, errResult) := shared in
  match query a ns with
  | (_, Some err) => (out, Some err)
  | (v, None) => (out ++ v, errResult)
  end.

(** [getAllResources] when the goroutines take effect in the order
    [completion]; after [wg.Wait()] the function returns [out, errResult]. *)
Definition getAllResources_in (completion : list apiResource) (ns : string)
  : list Unstructured * option error :=
  foldl (worker ns) ([], None) completion.

(** [sched] picks the order in which the dispatched goroutines take effect. *)
Definition getAllResources (sched : list apiResource -> list apiResource)
    (apis : list apiResource) (ns : string) : list Unstructured * option error :=
  getAllResources_in (sched (dispatched apis)) ns.
End FleetFetcher.

(** A scheduler only reorders the goroutines it is given. *)
Definition scheduler (sched : list apiResource -> list apiResource) : Prop :=
  forall l, sched l ≡ₚ l.

(** ** The command *)

(** What [run] writes to standard output. *)
Inductive printed :=
  | Line (s : string)                 (* fmt.Println of a string literal *)
  | Directory (d : objectDirectory).  (* fmt.Println(objs) *)

Definition noOwnedMessage : string :=
  "No resources are owned by this object through ownerReferences.".

(** Lines 87-93 of [run]: build the directory and report. *)
Definition report (obj : Unstructured) (apiObjects : list Unstructured)
  : list printed * option error :=
  let objs := newObjectDirectory apiObjects in
  if (size (childrenMap objs (GetUID obj)) =? 0)%nat then
    ([Line noOwnedMessage], None)
  else ([Directory objs], None).

Section Run.
Variable ParseGroupVersion : string -> error + GroupVersion.
(** [ServerPreferredResources()] of the discovery client. *)
Variable dc : list APIResourceList * option error.
(** [ri.Get(ctx, name, opts)]; the scope is [Some ns] for a namespaced
    resource interface and [None] for a cluster-wide one. *)
Variable Get : GroupVersionResource -> option string -> string -> error + Unstructured.
Variable query : apiResource -> string -> list Unstructured * option error.
Variable sched : list apiResource -> list apiResource.

(** [run], from the discovery call on (the clients are built). *)
Definition run (kind name ns : string) : list printed * option error :=
  match findAPIs ParseGroupVersion dc with
  | inl err => ([], Some err)
  | inr apis =>
      match resolveKind kind apis with
      | inl err => ([], Some err)
      | inr api =>
          let scope := if Namespaced (r api) then Some ns else None in
          match Get (GVR api) scope name with
          | inl err => ([], Some (ErrGet kind name err))
          | inr obj =>
              match getAllResources query sched (resources apis) ns with
              | (_, Some err) => ([], Some (ErrQueryObjects err))
              | (apiObjects, None) => report obj apiObjects
              end
          end
      end
  end.
End Run.

(** ** Definitions used to state the properties *)

(** The base names of a descriptor: singular, plural, short names. *)
Definition baseNames (a : APIResource) : list string :=
  singularOf a :: Name a :: ShortNames a.

(** How often [k] occurs in a list of keys. *)
Definition occurrences (k : string) (names : list string) : nat :=
  length (filter (fun n => n = k) names).

(** The resource types of one group/version that support "list". *)
Definition listable (gv : GroupVersion) (l : list APIResource) : list apiResource :=
  map (fun a => {| r := a; gv := gv |})
      (filter (fun a => contains (Verbs a) "list" = true) l).

(** The entries a key holds when the types [entries] are registered in order:
    each type once per occurrence of the key among its aliases. *)
Definition entriesAt (k : string) (entries : list apiResource) : list apiResource :=
  flat_map (fun v => replicate (occurrences k (apiNames (r v) (gv v))) v) entries.

Section Discovered.
Variable ParseGroupVersion : string -> error + GroupVersion.

(** All listable resource types of a discovery response, in discovery order. *)
Fixpoint discovered (resList : list APIResourceList) : list apiResource :=
  match resList with
  | [] => []
  | group :: rest =>
      match ParseGroupVersion (GroupVersionString group) with
      | inl _ => []
      | inr gv => listable gv (APIResources group)
      end ++ discovered rest
  end.
End Discovered.

(** ** Sample data: a parser and a small discovery response *)

(** The pieces of [s] between the bytes ['/']. *)
Fixpoint splitSlash (s : string) : list string :=
  match s with
  | EmptyString => [EmptyString]
  | String c rest =>
      if Ascii.eqb c "/" then EmptyString :: splitSlash rest
      else match splitSlash rest with
           | [] => [String c EmptyString]
           | p :: ps => String c p :: ps
           end
  end.

(** [schema.ParseGroupVersion] as apimachinery defines it: the empty string
    and "/" give the empty group/version, "v" gives the core group, "g/v"
    is split at its slash, and more than one slash is an error. *)
Definition parseGroupVersion (gv : string) : error + GroupVersion :=
  if String.eqb gv "" || String.eqb gv "/" then inr {| Group := ""; Version := "" |}
  else match splitSlash gv with
       | [v] => inr {| Group := ""; Version := v |}
       | [g; v] => inr {| Group := g; Version := v |}
       | _ => inl (External ("unexpected GroupVersion string: " +:+ gv))
       end.

Definition allVerbs : list string :=
  ["create"; "delete"; "get"; "list"; "patch"; "update"; "watch"]%string.

Definition coreServices : APIResource :=
  {| Name := "services"; SingularName := "service"; Namespaced := true;
     Kind := "Service"; Verbs := allVerbs; ShortNames := ["svc"]%string |}.

Definition coreBindings : APIResource :=
  {| Name := "bindings"; SingularName := "binding"; Namespaced := true;
     Kind := "Binding"; Verbs := ["create"]%string; ShortNames := [] |}.

Definition coreNodes : APIResource :=
  {| Name := "nodes"; SingularName := "node"; Namespaced := false;
     Kind := "Node"; Verbs := allVerbs; ShortNames := ["no"]%string |}.

Definition appsDeployments : APIResource :=
  {| Name := "deployments"; SingularName := ""; Namespaced := true;
     Kind := "Deployment"; Verbs := allVerbs; ShortNames := ["deploy"]%string |}.

Definition knativeServices : APIResource :=
  {| Name := "services"; SingularName := "service"; Namespaced := true;
     Kind := "Service"; Verbs := allVerbs;
     ShortNames := ["kservice"; "ksvc"]%string |}.

(** A discovery response in which the Knative group comes first. *)
Definition sampleDiscovery : list APIResourceList :=
  [ {| GroupVersionString := "serving.knative.dev/v1";
       APIResources := [knativeServices] |};
    {| GroupVersionString := "v1";
       APIResources := [coreBindings; coreServices; coreNodes] |};
    {| GroupVersionString := "extensions/v1beta1";
       APIResources := [appsDeployments] |};
    {| GroupVersionString := "apps/v1";
       APIResources := [appsDeployments] |} ].

Definition coreV1 : GroupVersion := {| Group := ""; Version := "v1" |}.

(** The catalog [findAPIs] builds from [sampleDiscovery]. *)
Definition sampleCatalog : resourceMap :=
  match findAPIs parseGroupVersion (sampleDiscovery, None) with
  | inr rm => rm
  | inl _ => {| rm_list := []; rm_m := ∅ |}
  end.

(** A resource type served with an upper-case short name. *)
Definition widgets : APIResource :=
  {| Name := "widgets"; SingularName := "widget"; Namespaced := true;
     Kind := "Widget"; Verbs := allVerbs; ShortNames := ["WD"]%string |}.

Definition widgetDiscovery : list APIResourceList :=
  [ {| GroupVersionString := "example.io/v1"; APIResources := [widgets] |} ].

(** The last byte of [s] is ['.']. *)
Fixpoint endsInDot (s : string) : bool :=
  match s with
  | EmptyString => false
  | String c rest =>
      match rest with
      | EmptyString => Ascii.eqb c "."
      | String _ _ => endsInDot rest
      end
  end.

(** Names as the API server validates them: base names and version are
    single labels (no dot) and the group name does not end in a dot. *)
Definition plainNames (v : apiResource) : Prop :=
  Forall (fun n => dotfree n = true) (baseNames (r v)) /\
  dotfree (Version (gv v)) = true /\
  endsInDot (Group (gv v)) = false.

(** A discovery response without the core group, where two groups serve a
    resource named "services". *)
Definition extensionDiscovery : list APIResourceList :=
  [ {| GroupVersionString := "serving.knative.dev/v1";
       APIResources := [knativeServices] |};
    {| GroupVersionString := "example.io/v1";
       APIResources := [knativeServices] |} ].

Definition extensionCatalog : resourceMap :=
  match findAPIs parseGroupVersion (extensionDiscovery, None) with
  | inr rm => rm
  | inl _ => {| rm_list := []; rm_m := ∅ |}
  end.

(** The objects A, B, C, D: B and C are owned by A, D is owned by B. *)
Definition ownedBy (owner : UID) : OwnerReference :=
  {| refKind := "Workload"; refName := owner; refUID := owner |}.

Definition objA : Unstructured :=
  {| GetName := "petc"; GetUID := "A"; GetOwnerReferences := [] |}.
Definition objB : Unstructured :=
  {| GetName := "b"; GetUID := "B"; GetOwnerReferences := [ownedBy "A"] |}.
Definition objC : Unstructured :=
  {| GetName := "c"; GetUID := "C"; GetOwnerReferences := [ownedBy "A"] |}.
Definition objD : Unstructured :=
  {| GetName := "d"; GetUID := "D"; GetOwnerReferences := [ownedBy "B"] |}.

(** The group/version/resource of core v1 services. *)
Definition servicesV1 : GroupVersionResource :=
  {| gvrGroup := ""; gvrVersion := "v1"; gvrResource := "services" |}.

Definition sameGVR (a b : GroupVersionResource) : bool :=
  String.eqb (gvrGroup a) (gvrGroup b) && String.eqb (gvrVersion a) (gvrVersion b)
  && String.eqb (gvrResource a) (gvrResource b).

(** A server that records the requests it receives (resource, namespace and
    options) and, for core v1 services in the namespace "ns1", serves the
    objects A, B, C, D in three pages linked by the cursors "C1" and "C2";
    any other resource, namespace or cursor is refused. *)
Definition pagedList (gvr : GroupVersionResource) (ns : string)
    (opts : ListOptions)
    (log : list (GroupVersionResource * string * ListOptions))
  : list (GroupVersionResource * string * ListOptions) *
    (error + UnstructuredList) :=
  (log ++ [(gvr, ns, opts)],
   if negb (sameGVR gvr servicesV1 && String.eqb ns "ns1") then
     inl (External "the server could not find the requested resource")
   else if String.eqb (Continue opts) "" then
     inr {| Items := [objA]; GetContinue := "C1" |}
   else if String.eqb (Continue opts) "C1" then
     inr {| Items := [objB; objC]; GetContinue := "C2" |}
   else if String.eqb (Continue opts) "C2" then
     inr {| Items := [objD]; GetContinue := "" |}
   else inl (External "invalid continue token")).

(** The same server with the third page failing. *)
Definition brokenList (gvr : GroupVersionResource) (ns : string)
    (opts : ListOptions)
    (log : list (GroupVersionResource * string * ListOptions))
  : list (GroupVersionResource * string * ListOptions) *
    (error + UnstructuredList) :=
  if String.eqb (Continue opts) "C2" then
    (log ++ [(gvr, ns, opts)], inl (External "connection reset"))
  else pagedList gvr ns opts log.

(** The requests of limit 250 for core v1 services in "ns1" with the given
    cursors. *)
Definition servicesRequests (cursors : list string)
  : list (GroupVersionResource * string * ListOptions) :=
  map (fun c => (servicesV1, "ns1"%string, {| Limit := 250; Continue := c |}))
      cursors.

Definition coreServicesType : apiResource := {| r := coreServices; gv := coreV1 |}.

(** What the goroutines that succeed append, in the order [l]. *)
Definition succeededItems (query : apiResource -> string -> list Unstructured * option error)
    (ns : string) (l : list apiResource) : list Unstructured :=
  flat_map (fun a => match query a ns with
                     | (v, None) => v
                     | (_, Some _) => []
                     end) l.

(** The last error stored to [errResult], in the order [l]. *)
Definition lastError (query : apiResource -> string -> list Unstructured * option error)
    (ns : string) (e : option error) (l : list apiResource) : option error :=
  foldl (fun e a => match (query a ns).2 with
                    | Some err => Some err
                    | None => e
                    end) e l.

Definition appsDeploymentsType : apiResource :=
  {| r := appsDeployments; gv := {| Group := "apps"; Version := "v1" |} |}.

(** Fetch outcomes: services are listed, deployments cannot be listed. *)
Definition sampleQuery (a : apiResource) (ns : string)
  : list Unstructured * option error :=
  if String.eqb (Name (r a)) "services" then ([objB; objC], None)
  else if String.eqb (Name (r a)) "deployments" then
    ([], Some (ErrListing (GVR a) (External "connection reset")))
  else ([], None).

(** Fetch outcomes with every listing succeeding. *)
Definition healthyQuery (a : apiResource) (ns : string)
  : list Unstructured * option error :=
  if String.eqb (Name (r a)) "services" then ([objB; objC], None)
  else if String.eqb (Name (r a)) "deployments" then ([objD], None)
  else ([], None).

(** The cluster of the end-to-end example: the root object "petc" of kind
    "workload" in namespace "ns1". *)
Definition workloads : APIResource :=
  {| Name := "workloads"; SingularName := "workload"; Namespaced := true;
     Kind := "Workload"; Verbs := allVerbs; ShortNames := [] |}.

Definition workloadDiscovery : list APIResourceList * option error :=
  ([ {| GroupVersionString := "carto.run/v1alpha1"; APIResources := [workloads] |};
     {| GroupVersionString := "v1"; APIResources := [coreServices] |} ], None).

Definition getPetc (gvr : GroupVersionResource) (scope : option string)
    (name : string) : error + Unstructured :=
  if String.eqb name "petc" then inr objA else inl (External "not found").

(** No fetched object refers to petc. *)
Definition lonelyQuery (a : apiResource) (ns : string)
  : list Unstructured * option error :=
  if String.eqb (Name (r a)) "workloads" then ([objA], None) else ([], None).

(** The services B and C are owned by petc. *)
Definition ownedQuery (a : apiResource) (ns : string)
  : list Unstructured * option error :=
  if String.eqb (Name (r a)) "workloads" then ([objA], None)
  else ([objB; objC], None).

(** ** Further sample data *)

(** A discovery response whose second group/version string has two slashes. *)
Definition brokenDiscovery : list APIResourceList :=
  [ {| GroupVersionString := "v1"; APIResources := [coreServices] |};
    {| GroupVersionString := "apps/v1/extra"; APIResources := [appsDeployments] |};
    {| GroupVersionString := "serving.knative.dev/v1";
       APIResources := [knativeServices] |} ].

(** The core endpoints resource: its kind, lower-cased, is its plural name. *)
Definition coreEndpoints : APIResource :=
  {| Name := "endpoints"; SingularName := ""; Namespaced := true;
     Kind := "Endpoints"; Verbs := allVerbs; ShortNames := ["ep"]%string |}.

Definition endpointsDiscovery : list APIResourceList :=
  [ {| GroupVersionString := "v1"; APIResources := [coreEndpoints] |} ].

Definition endpointsCatalog : resourceMap :=
  match findAPIs parseGroupVersion (endpointsDiscovery, None) with
  | inr rm => rm
  | inl _ => {| rm_list := []; rm_m := ∅ |}
  end.

(** The group/version of a discovered group parses. *)
Definition parses (P : string -> error + GroupVersion) (g : APIResourceList) : Prop :=
  exists gv, P (GroupVersionString g) = inr gv.

(** A discovery response in which no descriptor supports "list". *)
Definition writeOnlyDiscovery : list APIResourceList :=
  [ {| GroupVersionString := "v1"; APIResources := [coreBindings] |} ].

(** A request as the server sees it. *)
Definition request : Type := GroupVersionResource * string * ListOptions.

Section Recording.
Context {Server : Type}.
Variable List : GroupVersionResource -> string -> ListOptions -> Server ->
                Server * (error + UnstructuredList).

(** The server [List] with a log of the requests it has received. *)
Definition recorded (gvr : GroupVersionResource) (ns : string)
    (opts : ListOptions) (st : Server * list request)
  : (Server * list request) * (error + UnstructuredList) :=
  let '(srv', resp) := List gvr ns opts st.1 in
  ((srv', st.2 ++ [(gvr, ns, opts)]), resp).
End Recording.

(** The requests of [queryAPI] that carry the cursors [cursors]. *)
Definition requestsFor (api : apiResource) (ns : string) (cursors : list string)
  : list request :=
  map (fun c => (GVR api, ns, {| Limit := 250; Continue := c |})) cursors.

(** A server that always has one more page. *)
Definition stuckList (gvr : GroupVersionResource) (ns : string)
    (opts : ListOptions) (count : nat) : nat * (error + UnstructuredList) :=
  (S count, inr {| Items := [objA]; GetContinue := "next" |}).

(** Fetch outcomes with two failing listings. *)
Definition failingQuery (a : apiResource) (ns : string)
  : list Unstructured * option error :=
  if String.eqb (Name (r a)) "services" then
    ([], Some (ErrListing (GVR a) (External "timeout")))
  else if String.eqb (Name (r a)) "deployments" then
    ([], Some (ErrListing (GVR a) (External "connection reset")))
  else ([], None).

Definition coreNodesType : apiResource := {| r := coreNodes; gv := coreV1 |}.

(** A discovery response with cluster-scoped types only. *)
Definition nodesDiscovery : list APIResourceList * option error :=
  ([ {| GroupVersionString := "v1"; APIResources := [coreNodes] |} ], None).

(** The errors [run] can return for the arguments [kind] and [name]: each
    carries the context of the stage that failed. *)
Definition runError (kind name : string) (e : error) : Prop :=
  match e with
  | ErrFetchGroups _ | ErrParseGroupVersion _ _ | ErrQueryObjects _ => True
  | ErrKindNotFound k | ErrAmbiguousKind k _ => k = kind
  | ErrGet k n _ => k = kind /\ n = name
  | External _ | ErrListing _ _ => False
  end.

(** * Properties *)

(** ** Strings *)

Lemma lower_byte_idem c : lower_byte (lower_byte c) = lower_byte c.
Proof. by destruct c as [[] [] [] [] [] [] [] []]. Qed.

Lemma ToLower_idem s : ToLower (ToLower s) = ToLower s.
Proof. induction s as [|c s IH]; simpl; [done|]. by rewrite lower_byte_idem, IH. Qed.

(** [lookup] does not see the case of the requested name. *)
Lemma lookup_ToLower rm s : lookup rm (ToLower s) = lookup rm s.
Proof. unfold lookup. by rewrite ToLower_idem. Qed.

Lemma contains_elem_of v s : contains v s = true <-> s ∈ v.
Proof.
  induction v as [|vv v IH]; simpl.
  - split; [done | by intros ?%elem_of_nil].
  - destruct (String.eqb vv s) eqn:E.
    + apply String.eqb_eq in E as ->. split; [intros _; left | done].
    + apply String.eqb_neq in E. rewrite IH, elem_of_cons. naive_solver.
Qed.

(** Splitting at the first dot is unique. *)
Lemma split_first_dot a a' b b' :
  dotfree a = true -> dotfree a' = true ->
  a +:+ "." +:+ b = a' +:+ "." +:+ b' -> a = a' /\ b = b'.
Proof.
  revert a'. induction a as [|c a IH]; intros [|c' a'] Ha Ha' E; simpl in *.
  - by injection E.
  - injection E as <- _. by destruct (dotfree a'); simpl in Ha'.
  - injection E as -> _. by destruct (dotfree a); simpl in Ha.
  - injection E as -> E.
    apply andb_true_iff in Ha as [_ Ha]. apply andb_true_iff in Ha' as [_ Ha'].
    destruct (IH a' Ha Ha' E) as [-> ->]. done.
Qed.

Lemma dotfree_app_dot a b : dotfree (a +:+ "." +:+ b) = false.
Proof.
  induction a as [|c a IH]; simpl; [done|]. rewrite IH. by destruct (negb _).
Qed.

(** ** Catalog: the alias list *)

Lemma foldl_app_flat_map {A B} (f : A -> list B) (l : list A) (acc : list B) :
  foldl (fun out n => out ++ f n) acc l = acc ++ flat_map f l.
Proof.
  revert acc. induction l as [|x l IH]; intros acc; simpl.
  - by rewrite app_nil_r.
  - by rewrite IH, <- app_assoc.
Qed.

Lemma apiNames_flat_map a gv :
  apiNames a gv = flat_map (qualified gv) (baseNames a).
Proof. unfold apiNames. by rewrite foldl_app_flat_map. Qed.

Lemma elem_of_apiNames key a gv :
  key ∈ apiNames a gv <->
  exists n, n ∈ baseNames a /\
    (key = n \/ key = n +:+ "." +:+ Group gv \/
     key = n +:+ "." +:+ Version gv +:+ "." +:+ Group gv).
Proof.
  rewrite apiNames_flat_map, list_elem_of_In, in_flat_map. split.
  - intros (n & Hn & Hk). exists n. rewrite list_elem_of_In. split; [done|].
    simpl in Hk. naive_solver.
  - intros (n & Hn & Hk). exists n. rewrite <- list_elem_of_In. split; [done|].
    simpl. naive_solver.
Qed.

(** ** Catalog: registration *)

Lemma occurrences_pos k names : (0 < occurrences k names)%nat <-> k ∈ names.
Proof.
  unfold occurrences. induction names as [|n names IH]; simpl.
  - rewrite elem_of_nil. simpl. lia.
  - rewrite filter_cons, elem_of_cons. case_decide; simpl; [subst|]; naive_solver lia.
Qed.

Lemma at_key_register v m name k :
  at_key (register v m name) k =
  at_key m k ++ (if decide (name = k) then [v] else []).
Proof.
  unfold register, at_key. case_decide as E.
  - subst. by rewrite lookup_insert_eq.
  - rewrite lookup_insert_ne by done. by rewrite app_nil_r.
Qed.

Lemma at_key_foldl_register v names m k :
  at_key (foldl (register v) m names) k =
  at_key m k ++ replicate (occurrences k names) v.
Proof.
  revert m. unfold occurrences.
  induction names as [|n names IH]; intros m; simpl.
  - by rewrite app_nil_r.
  - rewrite IH, at_key_register, filter_cons.
    case_decide; simpl; by rewrite <- app_assoc.
Qed.

Lemma addResource_skip gv rm a :
  contains (Verbs a) "list" = false -> addResource gv rm a = rm.
Proof. unfold addResource. by intros ->. Qed.

Lemma addResource_list gv rm a :
  contains (Verbs a) "list" = true ->
  rm_list (addResource gv rm a) = rm_list rm ++ [ {| r := a; gv := gv |} ].
Proof. unfold addResource. by intros ->. Qed.

Lemma addResource_at_key gv rm a k :
  contains (Verbs a) "list" = true ->
  at_key (rm_m (addResource gv rm a)) k =
  at_key (rm_m rm) k ++
  replicate (occurrences k (apiNames a gv)) {| r := a; gv := gv |}.
Proof. unfold addResource. intros ->. simpl. apply at_key_foldl_register. Qed.

(** ** Catalog: the whole of [findAPIs] *)

Lemma entriesAt_app k l1 l2 : entriesAt k (l1 ++ l2) = entriesAt k l1 ++ entriesAt k l2.
Proof. apply flat_map_app. Qed.

Lemma elem_of_entriesAt v k entries :
  v ∈ entriesAt k entries <-> v ∈ entries /\ k ∈ apiNames (r v) (gv v).
Proof.
  unfold entriesAt. rewrite list_elem_of_In, in_flat_map. split.
  - intros (w & Hw & Hv). apply list_elem_of_In, elem_of_replicate in Hv as [-> Hn].
    rewrite list_elem_of_In, <- occurrences_pos. split; [done | lia].
  - intros [Hv Hk]. exists v. rewrite <- !list_elem_of_In. split; [done|].
    apply elem_of_replicate. split; [done|]. apply occurrences_pos in Hk. lia.
Qed.

Lemma foldl_addResource gv l rm :
  rm_list (foldl (addResource gv) rm l) = rm_list rm ++ listable gv l /\
  forall k, at_key (rm_m (foldl (addResource gv) rm l)) k =
            at_key (rm_m rm) k ++ entriesAt k (listable gv l).
Proof.
  revert rm. unfold listable.
  induction l as [|a l IH]; intros rm; simpl.
  - split; [|intros k]; by rewrite app_nil_r.
  - destruct (IH (addResource gv rm a)) as [IHl IHm]. rewrite filter_cons.
    destruct (contains (Verbs a) "list") eqn:E.
    + rewrite decide_True by done. split.
      * rewrite IHl, addResource_list by done. by rewrite <- app_assoc.
      * intros k. rewrite IHm, addResource_at_key by done.
        simpl. unfold entriesAt at 2. simpl. by rewrite <- app_assoc.
    + rewrite decide_False by done. by rewrite addResource_skip in * by done.
Qed.

Lemma findAPIs_groups_spec P resList rm rm' :
  findAPIs_groups P resList rm = inr rm' ->
  rm_list rm' = rm_list rm ++ discovered P resList /\
  forall k, at_key (rm_m rm') k = at_key (rm_m rm) k ++ entriesAt k (discovered P resList).
Proof.
  revert rm. induction resList as [|g rest IH]; intros rm; simpl.
  - intros [= <-]. split; [|intros k]; by rewrite app_nil_r.
  - destruct (P (GroupVersionString g)) as [err|gv]; [done|].
    intros [Hl Hm]%IH.
    destruct (foldl_addResource gv (APIResources g) rm) as [Hl' Hm']. split.
    + by rewrite Hl, Hl', <- app_assoc.
    + intros k. by rewrite Hm, Hm', entriesAt_app, <- app_assoc.
Qed.

(** The catalog built by [findAPIs]: its list is the listable types in
    discovery order, and each key holds the types that have it as an alias. *)
Lemma findAPIs_spec P resList rm :
  findAPIs P (resList, None) = inr rm ->
  rm_list rm = discovered P resList /\
  forall k, at_key (rm_m rm) k = entriesAt k (discovered P resList).
Proof. intros H. by apply findAPIs_groups_spec in H. Qed.

Lemma findAPIs_inr P client rm :
  findAPIs P client = inr rm -> exists resList, client = (resList, None).
Proof. destruct client as [resList [err|]]; [done | by exists resList]. Qed.

Lemma discovered_listable P resList v :
  v ∈ discovered P resList -> contains (Verbs (r v)) "list" = true.
Proof.
  induction resList as [|g rest IH]; simpl; [by intros ?%elem_of_nil|].
  rewrite elem_of_app. intros [H|H]; [|by apply IH].
  destruct (P (GroupVersionString g)) as [err|gv]; [by apply elem_of_nil in H|].
  unfold listable in H. apply list_elem_of_fmap in H as (a & -> & Ha).
  by apply list_elem_of_filter in Ha as [Ha _].
Qed.

Example sampleCatalog_list :
  map fullAPIName (rm_list sampleCatalog) =
  ["services.v1.serving.knative.dev"; "services.v1."; "nodes.v1.";
   "deployments.v1beta1.extensions"; "deployments.v1.apps"]%string.
Proof. vm_compute. reflexivity. Qed.

Example sample_lookup_service :
  map fullAPIName (lookup sampleCatalog "Service") =
  ["services.v1.serving.knative.dev"; "services.v1."]%string.
Proof. vm_compute. reflexivity. Qed.

(** ** Claims about the catalog *)

(** C7. A descriptor that supports "list" is registered by the loop body of
    [findAPIs] under exactly the keys {singular, plural, short names} x
    {bare, name.group, name.version.group}, the singular base name being the
    declared singular name or, when that is empty, the lower-cased kind; it is
    appended once to the full list.  For the whole of [findAPIs]: the list is
    the listable descriptors in discovery order, and a key holds a type
    exactly when the key is one of the type's aliases. *)
Theorem findAPIs_registers_alias_set (g : GroupVersion) (rm : resourceMap)
    (apiRes : APIResource) :
  contains (Verbs apiRes) "list" = true ->
  let v := {| r := apiRes; gv := g |} in
  let rm' := addResource g rm apiRes in
  let bases := [singularOf apiRes; Name apiRes] ++ ShortNames apiRes in
  (SingularName apiRes <> "" -> singularOf apiRes = SingularName apiRes) /\
  (SingularName apiRes = "" -> singularOf apiRes = ToLower (Kind apiRes)) /\
  apiNames apiRes g =
    flat_map (fun n => [n; n +:+ "." +:+ Group g;
                        n +:+ "." +:+ Version g +:+ "." +:+ Group g]) bases /\
  (forall key, key ∈ apiNames apiRes g -> v ∈ at_key (rm_m rm') key) /\
  (forall key, key ∉ apiNames apiRes g ->
               at_key (rm_m rm') key = at_key (rm_m rm) key) /\
  (forall key, exists n, at_key (rm_m rm') key = at_key (rm_m rm) key ++ replicate n v) /\
  rm_list rm' = rm_list rm ++ [v] /\
  (forall P resList cat,
     findAPIs P (resList, None) = inr cat ->
     rm_list cat = discovered P resList /\
     forall w key, w ∈ at_key (rm_m cat) key <->
                   w ∈ discovered P resList /\ key ∈ apiNames (r w) (gv w)).
Proof.
  intros Hlist v rm' bases. split_and!.
  - intros Hne. unfold singularOf.
    destruct (String.eqb_spec (SingularName apiRes) ""); done.
  - intros He. unfold singularOf. by rewrite He.
  - apply apiNames_flat_map.
  - intros key Hkey. subst rm' v. rewrite addResource_at_key by done.
    apply elem_of_app. right. apply elem_of_replicate. split; [done|].
    apply occurrences_pos in Hkey. lia.
  - intros key Hkey. subst rm'. rewrite addResource_at_key by done.
    destruct (occurrences key (apiNames apiRes g)) as [|n] eqn:E.
    + simpl. by rewrite app_nil_r.
    + exfalso. apply Hkey, occurrences_pos. lia.
  - intros key. eexists. subst rm'. by rewrite addResource_at_key.
  - by apply addResource_list.
  - intros P resList cat [Hl Hm]%findAPIs_spec. split; [done|].
    intros w key. rewrite Hm. apply elem_of_entriesAt.
Qed.

Lemma findAPIs_registers_alias_set_witness :
  contains (Verbs appsDeployments) "list" = true /\
  singularOf appsDeployments = "deployment" /\
  apiNames appsDeployments {| Group := "apps"; Version := "v1" |} =
    ["deployment"; "deployment.apps"; "deployment.v1.apps";
     "deployments"; "deployments.apps"; "deployments.v1.apps";
     "deploy"; "deploy.apps"; "deploy.v1.apps"]%string.
Proof.
  split; [reflexivity|].
  pose proof (findAPIs_registers_alias_set {| Group := "apps"; Version := "v1" |}
                {| rm_list := []; rm_m := ∅ |} appsDeployments eq_refl)
    as (_ & Hs & Hn & _).
  split; [exact (Hs eq_refl) | exact Hn].
Defined.

(** C8. In a catalog produced by [findAPIs] every key of the index, and the
    full list, holds only resource types whose verbs contain "list"; a type
    without that verb is under no key and not in the list. *)
Theorem findAPIs_only_listable (P : string -> error + GroupVersion)
    (client : list APIResourceList * option error) (rm : resourceMap) :
  findAPIs P client = inr rm ->
  (forall key l v, rm_m rm !! key = Some l -> v ∈ l ->
                   contains (Verbs (r v)) "list" = true /\ "list" ∈ Verbs (r v)) /\
  (forall s v, v ∈ lookup rm s -> "list" ∈ Verbs (r v)) /\
  (forall v, v ∈ rm_list rm -> "list" ∈ Verbs (r v)) /\
  (forall v, contains (Verbs (r v)) "list" = false ->
             (v ∉ rm_list rm) /\ forall key, v ∉ at_key (rm_m rm) key).
Proof.
  intros H. destruct (findAPIs_inr _ _ _ H) as [resList ->].
  apply findAPIs_spec in H as [Hl Hm].
  assert (Hkey : forall key v, v ∈ at_key (rm_m rm) key ->
                               contains (Verbs (r v)) "list" = true).
  { intros key v. rewrite Hm. intros [Hv _]%elem_of_entriesAt.
    by apply discovered_listable in Hv. }
  split_and!.
  - intros key l v Hkl Hv.
    assert (contains (Verbs (r v)) "list" = true) as Hc.
    { apply (Hkey key). unfold at_key. by rewrite Hkl. }
    split; [done | by apply contains_elem_of].
  - intros s v Hv. apply contains_elem_of. by apply (Hkey (ToLower s)).
  - intros v. rewrite Hl. intros Hv%discovered_listable. by apply contains_elem_of.
  - intros v Hno. split.
    + rewrite Hl. intros Hv%discovered_listable. congruence.
    + intros key Hv%Hkey. congruence.
Qed.

Lemma findAPIs_only_listable_witness :
  findAPIs parseGroupVersion (sampleDiscovery, None) = inr sampleCatalog /\
  {| r := coreBindings; gv := coreV1 |} ∉ rm_list sampleCatalog.
Proof.
  split; [reflexivity|].
  apply (findAPIs_only_listable parseGroupVersion (sampleDiscovery, None)
           sampleCatalog eq_refl).
  reflexivity.
Defined.

(** Aliases that are already lower-case are found by [lookup] under every
    spelling that lower-cases to them. *)
Lemma lookup_lowercase_alias P resList rm v alias s :
  findAPIs P (resList, None) = inr rm ->
  v ∈ rm_list rm -> alias ∈ apiNames (r v) (gv v) ->
  ToLower s = alias -> v ∈ lookup rm s.
Proof.
  intros [Hl Hm]%findAPIs_spec Hv Ha Hs. unfold lookup.
  rewrite Hs, Hm. apply elem_of_entriesAt. by rewrite <- Hl.
Qed.

(** C5. [findAPIs] stores a type under its aliases as they are spelled, while
    [lookup] lower-cases the requested name: the generated alias "WD" of the
    type [widgets] is a key of the index, and looking up "WD" (or any other
    spelling of it) finds nothing. *)
Theorem lookup_misses_uppercase_alias :
  let v := {| r := widgets; gv := {| Group := "example.io"; Version := "v1" |} |} in
  exists rm,
    findAPIs parseGroupVersion (widgetDiscovery, None) = inr rm /\
    rm_list rm = [v] /\
    "WD" ∈ apiNames (r v) (gv v) /\
    rm_m rm !! "WD" = Some [v] /\
    lookup rm "WD" = [] /\ lookup rm "wd" = [] /\ lookup rm "Wd" = [].
Proof.
  intros v. eexists. split; [reflexivity|].
  split_and!; try (vm_compute; reflexivity).
  apply elem_of_apiNames. exists "WD". split; [|by left].
  vm_compute. do 2 right. left.
Qed.

(** ** Core-group keys *)

Lemma dotfree_ToLower s : dotfree (ToLower s) = dotfree s.
Proof.
  induction s as [|c s IH]; simpl; [done|]. rewrite IH. f_equal.
  by destruct c as [[] [] [] [] [] [] [] []].
Qed.

Lemma ToLower_app a b : ToLower (a +:+ b) = ToLower a +:+ ToLower b.
Proof. induction a as [|c a IH]; simpl; [done|]. by rewrite IH. Qed.

Lemma ToLower_nonempty s : s <> "" -> ToLower s <> "".
Proof. by destruct s. Qed.

Lemma apiNames_core a g :
  Group g = "" ->
  apiNames a g =
  flat_map (fun n => [n; n +:+ "."; n +:+ "." +:+ Version g +:+ "."]) (baseNames a).
Proof. intros Hg. rewrite apiNames_flat_map. unfold qualified. simpl. by rewrite Hg. Qed.

(** No key of the shape [x.y], with [x] and [y] free of dots and [y] not
    empty, is an alias of a core-group type with plain names. *)
Lemma core_alias_needs_trailing_dot a g x y :
  Group g = "" ->
  Forall (fun n => dotfree n = true) (baseNames a) ->
  dotfree (Version g) = true ->
  dotfree x = true -> dotfree y = true -> y <> "" ->
  x +:+ "." +:+ y ∉ apiNames a g.
Proof.
  intros Hg Hb Hv Hx Hy Hne (n & Hn & Hk)%elem_of_apiNames.
  rewrite Forall_forall in Hb. apply Hb in Hn.
  rewrite Hg in Hk. destruct Hk as [Hk | [Hk | Hk]].
  - rewrite <- Hk, dotfree_app_dot in Hn. done.
  - by apply split_first_dot in Hk as [_ ->].
  - apply split_first_dot in Hk as [_ ->]; [|done..].
    by rewrite dotfree_app_dot in Hy.
Qed.

(** C10. In the core (empty) group the qualified aliases end in a dot: the
    keys of a base name are "name", "name." and "name.version."; the service
    override reads the key "service.v1."; and a name of the shape x.y without
    the trailing dot never finds a core-group type whose names are plain. *)
Theorem core_group_keys_end_in_dot :
  (forall a g, Group g = "" ->
     apiNames a g =
     flat_map (fun n => [n; n +:+ "."; n +:+ "." +:+ Version g +:+ "."])
              ([singularOf a; Name a] ++ ShortNames a)) /\
  Join ["service"; ""] "." = "service." /\
  Join ["service"; "v1"; ""] "." = "service.v1." /\
  (forall kind v, ToLower kind ∈ ["svc"; "service"; "services"] ->
     overrideType kind v =
     match at_key (rm_m v) "service.v1." with
     | out0 :: _ => (out0, true)
     | [] => (apiResource_zero, false)
     end) /\
  (forall P resList rm v n,
     findAPIs P (resList, None) = inr rm -> v ∈ rm_list rm ->
     Group (gv v) = "" -> n ∈ baseNames (r v) ->
     v ∈ at_key (rm_m rm) (n +:+ ".") /\
     v ∈ at_key (rm_m rm) (n +:+ "." +:+ Version (gv v) +:+ ".")) /\
  (forall P resList rm v x y,
     findAPIs P (resList, None) = inr rm -> v ∈ rm_list rm ->
     Group (gv v) = "" ->
     Forall (fun n => dotfree n = true) (baseNames (r v)) ->
     dotfree (Version (gv v)) = true ->
     dotfree x = true -> dotfree y = true -> y <> "" ->
     v ∉ lookup rm (x +:+ "." +:+ y)).
Proof.
  split_and!.
  - intros a g Hg. by apply apiNames_core.
  - reflexivity.
  - reflexivity.
  - intros kind v Hk. unfold overrideType. by rewrite bool_decide_eq_true_2.
  - intros P resList rm v n [Hl Hm]%findAPIs_spec Hv Hg Hn.
    rewrite !Hm, !elem_of_entriesAt, <- Hl.
    split; (split; [done|]); apply elem_of_apiNames; exists n; rewrite Hg;
      (split; [done|]); [right; left | right; right]; done.
  - intros P resList rm v x y [Hl Hm]%findAPIs_spec Hv Hg Hb Hver Hx Hy Hne.
    unfold lookup. rewrite Hm, elem_of_entriesAt.
    intros [_ Hk]. rewrite !ToLower_app in Hk. simpl in Hk.
    apply core_alias_needs_trailing_dot in Hk;
      rewrite ?dotfree_ToLower; auto using ToLower_nonempty.
Qed.

Lemma core_group_keys_end_in_dot_witness :
  findAPIs parseGroupVersion (sampleDiscovery, None) = inr sampleCatalog /\
  {| r := coreServices; gv := coreV1 |} ∈ at_key (rm_m sampleCatalog) "service.v1." /\
  {| r := coreServices; gv := coreV1 |} ∉ lookup sampleCatalog "service.v1".
Proof.
  split; [reflexivity|].
  destruct core_group_keys_end_in_dot as (_ & _ & _ & _ & Hin & Hout).
  assert ({| r := coreServices; gv := coreV1 |} ∈ rm_list sampleCatalog) as Hv.
  { vm_compute. right. left. }
  split.
  - apply (Hin parseGroupVersion sampleDiscovery sampleCatalog _ "service" eq_refl Hv eq_refl).
    vm_compute. left.
  - apply (Hout parseGroupVersion sampleDiscovery sampleCatalog _ "service" "v1"
             eq_refl Hv eq_refl); try reflexivity; [|done].
    vm_compute. repeat constructor.
Defined.

(** ** Claims about the resolver *)

Lemma foldl_names (l : list apiResource) :
  foldl (fun names a => names ++ [fullAPIName a]) [] l = map fullAPIName l.
Proof.
  rewrite (foldl_app_flat_map (fun a => [fullAPIName a])). simpl.
  induction l as [|a l IH]; simpl; [done | by rewrite IH].
Qed.

(** C2. When no override fires, the resolver reads the index at the
    lower-cased kind: no entry gives the not-found error carrying the kind as
    typed, one entry is returned, and several entries give the ambiguity
    error whose list is every candidate as resource.version.group, joined by
    ", ". *)
Theorem resolveKind_generic (kind : string) (apis : resourceMap) :
  (overrideType kind apis).2 = false ->
  lookup apis kind = at_key (rm_m apis) (ToLower kind) /\
  (lookup apis kind = [] -> resolveKind kind apis = inl (ErrKindNotFound kind)) /\
  (forall a, lookup apis kind = [a] -> resolveKind kind apis = inr a) /\
  ((1 < length (lookup apis kind))%nat ->
     resolveKind kind apis =
     inl (ErrAmbiguousKind kind (Join (map fullAPIName (lookup apis kind)) ", "))) /\
  (forall a, fullAPIName a =
             Name (r a) +:+ "." +:+ Version (gv a) +:+ "." +:+ Group (gv a)).
Proof.
  intros Hov. unfold resolveKind.
  destruct (overrideType kind apis) as [k fired]. simpl in Hov. subst fired.
  split_and!; try done.
  - by intros ->.
  - by intros a ->.
  - intros Hlen. rewrite foldl_names.
    destruct (lookup apis kind) as [|a [|b l]]; simpl in Hlen; [lia | lia | done].
Qed.

Lemma resolveKind_generic_witness :
  (overrideType "Service" extensionCatalog).2 = false /\
  resolveKind "Service" extensionCatalog =
    inl (ErrAmbiguousKind "Service"
           "services.v1.serving.knative.dev, services.v1.example.io") /\
  resolveKind "svc" extensionCatalog = inl (ErrKindNotFound "svc") /\
  resolveKind "KSVC.serving.knative.dev" extensionCatalog =
    inr {| r := knativeServices;
           gv := {| Group := "serving.knative.dev"; Version := "v1" |} |}.
Proof.
  split; [reflexivity|]. split_and!.
  - destruct (resolveKind_generic "Service" extensionCatalog eq_refl)
      as (_ & _ & _ & Hamb & _).
    rewrite Hamb; [reflexivity | vm_compute; lia].
  - destruct (resolveKind_generic "svc" extensionCatalog eq_refl)
      as (_ & Hnone & _).
    apply Hnone. reflexivity.
  - destruct (resolveKind_generic "KSVC.serving.knative.dev" extensionCatalog eq_refl)
      as (_ & _ & Hone & _).
    apply Hone. reflexivity.
Defined.

(** In a catalog built from plain names, the key "service.v1." holds only
    core-group v1 types that have the base name "service". *)
Lemma service_key_is_core P resList rm v :
  findAPIs P (resList, None) = inr rm ->
  plainNames v ->
  v ∈ at_key (rm_m rm) "service.v1." ->
  Group (gv v) = "" /\ Version (gv v) = "v1" /\ "service" ∈ baseNames (r v).
Proof.
  intros [_ Hm]%findAPIs_spec (Hb & Hver & Hg).
  rewrite Hm. intros [_ (n & Hn & Hk)%elem_of_apiNames]%elem_of_entriesAt.
  rewrite Forall_forall in Hb. pose proof (Hb _ Hn) as Hdn.
  destruct Hk as [Hk | [Hk | Hk]].
  - subst n. by vm_compute in Hdn.
  - apply (split_first_dot "service" n "v1." (Group (gv v))) in Hk as [-> Hk];
      [|done..].
    rewrite <- Hk in Hg. by vm_compute in Hg.
  - apply (split_first_dot "service" n "v1."
             (Version (gv v) +:+ "." +:+ Group (gv v))) in Hk as [-> Hk]; [|done..].
    apply (split_first_dot "v1" (Version (gv v)) "" (Group (gv v))) in Hk
      as [<- <-]; done.
Qed.

(** C6. [overrideType] lower-cases the kind and consults its fixed table
    before the generic index.  For svc/service/services it returns the first
    entry under the key "service.v1." when there is one; for
    deploy/deployment/deployments the first entry under "deployment.v1.apps",
    else the first under "deployment.v1beta1.extensions"; no other kind is
    overridden.  A hit is returned by the resolver without the ambiguity
    check.  In a catalog built by [findAPIs] from plain names the service
    override returns a core-group v1 type, wherever that type was discovered,
    and never a type of another group. *)
Theorem overrideType_precedence :
  (forall kind v, ToLower kind ∈ ["svc"; "service"; "services"] ->
     (forall out0 rest, at_key (rm_m v) "service.v1." = out0 :: rest ->
        overrideType kind v = (out0, true) /\ resolveKind kind v = inr out0) /\
     (at_key (rm_m v) "service.v1." = [] ->
        overrideType kind v = (apiResource_zero, false))) /\
  (forall kind v, ToLower kind ∈ ["deploy"; "deployment"; "deployments"] ->
     (forall out0 rest, at_key (rm_m v) "deployment.v1.apps" = out0 :: rest ->
        overrideType kind v = (out0, true) /\ resolveKind kind v = inr out0) /\
     (forall out0 rest,
        at_key (rm_m v) "deployment.v1.apps" = [] ->
        at_key (rm_m v) "deployment.v1beta1.extensions" = out0 :: rest ->
        overrideType kind v = (out0, true) /\ resolveKind kind v = inr out0) /\
     (at_key (rm_m v) "deployment.v1.apps" = [] ->
      at_key (rm_m v) "deployment.v1beta1.extensions" = [] ->
        overrideType kind v = (apiResource_zero, false))) /\
  (forall kind v,
     ToLower kind ∉ ["svc"; "service"; "services";
                     "deploy"; "deployment"; "deployments"] ->
     overrideType kind v = (apiResource_zero, false)) /\
  (forall P resList rm kind k,
     findAPIs P (resList, None) = inr rm ->
     (forall v, v ∈ rm_list rm -> plainNames v) ->
     ToLower kind ∈ ["svc"; "service"; "services"] ->
     overrideType kind rm = (k, true) ->
     k ∈ rm_list rm /\ Group (gv k) = "" /\ Version (gv k) = "v1" /\
     "service" ∈ baseNames (r k)) /\
  (forall P resList rm kind core,
     findAPIs P (resList, None) = inr rm ->
     (forall v, v ∈ rm_list rm -> plainNames v) ->
     ToLower kind ∈ ["svc"; "service"; "services"] ->
     core ∈ rm_list rm -> Group (gv core) = "" -> Version (gv core) = "v1" ->
     "service" ∈ baseNames (r core) ->
     exists k, resolveKind kind rm = inr k /\ Group (gv k) = "" /\ Version (gv k) = "v1").
Proof.
  assert (Hsvc : forall kind v, ToLower kind ∈ ["svc"; "service"; "services"] ->
            overrideType kind v =
            match at_key (rm_m v) "service.v1." with
            | out0 :: _ => (out0, true)
            | [] => (apiResource_zero, false)
            end).
  { intros kind v Hk. unfold overrideType. by rewrite bool_decide_eq_true_2. }
  assert (Hcore : forall P resList rm kind k,
            findAPIs P (resList, None) = inr rm ->
            (forall v, v ∈ rm_list rm -> plainNames v) ->
            ToLower kind ∈ ["svc"; "service"; "services"] ->
            overrideType kind rm = (k, true) ->
            k ∈ rm_list rm /\ Group (gv k) = "" /\ Version (gv k) = "v1" /\
            "service" ∈ baseNames (r k)).
  { intros P resList rm kind k Hf Hplain Hk Hov. rewrite Hsvc in Hov by done.
    destruct (at_key (rm_m rm) "service.v1.") as [|out0 rest] eqn:E; [done|].
    injection Hov as ->.
    assert (k ∈ at_key (rm_m rm) "service.v1.") as Hin by (rewrite E; left).
    assert (k ∈ rm_list rm) as Hkl.
    { destruct (findAPIs_spec _ _ _ Hf) as [Hl Hm].
      rewrite Hm in Hin. apply elem_of_entriesAt in Hin as [Hin _]. by rewrite Hl. }
    split; [done|]. eapply service_key_is_core; eauto. }
  split_and!.
  - intros kind v Hk. split.
    + intros out0 rest E. assert (overrideType kind v = (out0, true)) as Hov.
      { rewrite Hsvc by done. by rewrite E. }
      split; [done|]. unfold resolveKind. by rewrite Hov.
    + intros E. rewrite Hsvc by done. by rewrite E.
  - intros kind v Hk.
    assert (ToLower kind ∉ ["svc"; "service"; "services"]) as Hns.
    { intros Hs. set_unfold. naive_solver congruence. }
    assert (overrideType kind v =
            match at_key (rm_m v) "deployment.v1.apps" with
            | out0 :: _ => (out0, true)
            | [] => match at_key (rm_m v) "deployment.v1beta1.extensions" with
                    | out0 :: _ => (out0, true)
                    | [] => (apiResource_zero, false)
                    end
            end) as Hd.
    { unfold overrideType.
      rewrite bool_decide_eq_false_2 by done. by rewrite bool_decide_eq_true_2. }
    split_and!.
    + intros out0 rest E. assert (overrideType kind v = (out0, true)) as Hov.
      { by rewrite Hd, E. }
      split; [done|]. unfold resolveKind. by rewrite Hov.
    + intros out0 rest E1 E2. assert (overrideType kind v = (out0, true)) as Hov.
      { by rewrite Hd, E1, E2. }
      split; [done|]. unfold resolveKind. by rewrite Hov.
    + intros E1 E2. by rewrite Hd, E1, E2.
  - intros kind v Hk. unfold overrideType.
    rewrite !bool_decide_eq_false_2; [done | |]; set_unfold; naive_solver.
  - exact Hcore.
  - intros P resList rm kind core Hf Hplain Hk Hc Hg Hver Hn.
    assert (core ∈ at_key (rm_m rm) "service.v1.") as Hin.
    { destruct (findAPIs_spec _ _ _ Hf) as [Hl Hm].
      rewrite Hm. apply elem_of_entriesAt. split; [by rewrite <- Hl|].
      apply elem_of_apiNames. exists "service". split; [done|].
      right. right. by rewrite Hg, Hver. }
    destruct (at_key (rm_m rm) "service.v1.") as [|out0 rest] eqn:E.
    { by apply elem_of_nil in Hin. }
    assert (overrideType kind rm = (out0, true)) as Hov.
    { rewrite Hsvc by done. by rewrite E. }
    exists out0. split; [unfold resolveKind; by rewrite Hov|].
    destruct (Hcore P resList rm kind out0 Hf Hplain Hk Hov) as (_ & ? & ? & _).
    done.
Qed.

Lemma sampleCatalog_plain : forall v, v ∈ rm_list sampleCatalog -> plainNames v.
Proof.
  apply Forall_forall. vm_compute.
  repeat (constructor; [repeat split; repeat constructor|]). constructor.
Qed.

Lemma overrideType_precedence_witness :
  ToLower "Service" ∈ ["svc"; "service"; "services"] /\
  map fullAPIName (lookup sampleCatalog "Service") =
    ["services.v1.serving.knative.dev"; "services.v1."]%string /\
  resolveKind "Service" sampleCatalog = inr {| r := coreServices; gv := coreV1 |} /\
  resolveKind "Deploy" sampleCatalog =
    inr {| r := appsDeployments; gv := {| Group := "apps"; Version := "v1" |} |} /\
  (exists k, resolveKind "SVC" sampleCatalog = inr k /\
             Group (gv k) = "" /\ Version (gv k) = "v1").
Proof.
  destruct overrideType_precedence as (Hsvc & Hdep & _ & _ & Hany).
  assert (ToLower "Service" ∈ ["svc"; "service"; "services"]) as Hs.
  { vm_compute. right. left. }
  split; [exact Hs|]. split; [reflexivity|]. split_and!.
  - destruct (Hsvc "Service" sampleCatalog Hs) as [Hhit _].
    apply (Hhit _ []). reflexivity.
  - assert (ToLower "Deploy" ∈ ["deploy"; "deployment"; "deployments"]) as Hd.
    { vm_compute. left. }
    destruct (Hdep "Deploy" sampleCatalog Hd) as [Hhit _].
    apply (Hhit _ []). reflexivity.
  - apply (Hany parseGroupVersion sampleDiscovery sampleCatalog "SVC"
             {| r := coreServices; gv := coreV1 |} eq_refl sampleCatalog_plain).
    + vm_compute. left.
    + vm_compute. right. left.
    + reflexivity.
    + reflexivity.
    + vm_compute. left.
Defined.

(** ** Ownership directory *)

Lemma addOwner_children child own ref x :
  dom (default ∅ (addOwner child own ref !! x)) =
  dom (default (∅ : gmap UID bool) (own !! x)) ∪
  (if decide (refUID ref = x) then {[child]} else ∅).
Proof.
  unfold addOwner. case_decide as E.
  - subst x. rewrite lookup_insert_eq. simpl. rewrite dom_insert_L.
    destruct (own !! refUID ref) eqn:Ho; simpl.
    + rewrite Ho. simpl. set_solver.
    + rewrite lookup_insert_eq. simpl. set_solver.
  - rewrite lookup_insert_ne by done.
    destruct (own !! refUID ref); [|rewrite lookup_insert_ne by done]; set_solver.
Qed.

Lemma addOwner_values child own ref :
  (forall x m u b, own !! x = Some m -> m !! u = Some b -> b = true) ->
  forall x m u b, addOwner child own ref !! x = Some m -> m !! u = Some b -> b = true.
Proof.
  intros Hown x m u b. unfold addOwner.
  destruct (decide (refUID ref = x)) as [<-|Hne].
  - rewrite lookup_insert_eq. intros [= <-].
    destruct (decide (child = u)) as [<-|Hu].
    + rewrite lookup_insert_eq. congruence.
    + rewrite lookup_insert_ne by done.
      destruct (own !! refUID ref) as [m|] eqn:Ho.
      * rewrite Ho. simpl. by apply Hown with (refUID ref).
      * rewrite lookup_insert_eq. simpl. by rewrite lookup_empty.
  - rewrite lookup_insert_ne by done.
    destruct (own !! refUID ref); [|rewrite lookup_insert_ne by done]; apply Hown.
Qed.

Lemma foldl_addOwner_children child refs own x :
  dom (default ∅ (foldl (addOwner child) own refs !! x)) =
  dom (default (∅ : gmap UID bool) (own !! x)) ∪
  (if decide (x ∈ map refUID refs) then {[child]} else ∅).
Proof.
  revert own. induction refs as [|ref refs IH]; intros own; simpl.
  - set_solver.
  - rewrite IH, addOwner_children.
    repeat case_decide; set_solver.
Qed.

Lemma foldl_addOwner_values child refs own :
  (forall x m u b, own !! x = Some m -> m !! u = Some b -> b = true) ->
  forall x m u b, foldl (addOwner child) own refs !! x = Some m ->
                  m !! u = Some b -> b = true.
Proof.
  revert own. induction refs as [|ref refs IH]; intros own Hown; simpl; [done|].
  by apply IH, addOwner_values.
Qed.

Lemma foldl_addObject_children objs d x :
  childrenOf (foldl addObject d objs) x =
  childrenOf d x ∪ list_to_set (map GetUID (filter (declaresOwner x) objs)).
Proof.
  revert d. induction objs as [|obj objs IH]; intros d; simpl.
  - set_solver.
  - rewrite IH. unfold childrenOf at 1, childrenMap. simpl.
    rewrite foldl_addOwner_children.
    fold (childrenMap d x). fold (childrenOf d x).
    destruct (decide (x ∈ map refUID (GetOwnerReferences obj))) as [Hd|Hd].
    + rewrite filter_cons_True by done. simpl. set_solver.
    + rewrite filter_cons_False by done. set_solver.
Qed.

Lemma foldl_addObject_values objs d :
  (forall x m u b, ownership d !! x = Some m -> m !! u = Some b -> b = true) ->
  forall x m u b, ownership (foldl addObject d objs) !! x = Some m ->
                  m !! u = Some b -> b = true.
Proof.
  revert d. induction objs as [|obj objs IH]; intros d Hd; simpl; [done|].
  apply IH. simpl. by apply foldl_addOwner_values.
Qed.

Lemma childrenOf_newObjectDirectory objs x :
  childrenOf (newObjectDirectory objs) x =
  list_to_set (map GetUID (filter (declaresOwner x) objs)).
Proof.
  unfold newObjectDirectory. rewrite foldl_addObject_children.
  unfold childrenOf, childrenMap. simpl. rewrite lookup_empty. simpl.
  rewrite dom_empty_L. set_solver.
Qed.

Lemma elem_of_childrenOf objs x u :
  u ∈ childrenOf (newObjectDirectory objs) x <->
  exists obj, obj ∈ objs /\ GetUID obj = u /\
              x ∈ map refUID (GetOwnerReferences obj).
Proof.
  rewrite childrenOf_newObjectDirectory, elem_of_list_to_set, list_elem_of_fmap.
  split.
  - intros (obj & -> & [Hd Hin]%list_elem_of_filter). by exists obj.
  - intros (obj & Hin & <- & Hd). exists obj. split; [done|].
    by apply list_elem_of_filter.
Qed.

Lemma childrenOf_no_owner objs x :
  (forall obj, obj ∈ objs -> x ∉ map refUID (GetOwnerReferences obj)) ->
  childrenOf (newObjectDirectory objs) x = ∅.
Proof.
  intros Hnone. apply set_eq. intros u. rewrite elem_of_childrenOf. split.
  - intros (obj & Hin & _ & Hd). by apply Hnone in Hin.
  - by intros ?%not_elem_of_empty.
Qed.

(** C1. In the directory built by [newObjectDirectory], the children set of
    an identity [x] is exactly the set of UIDs of the input records that
    declare [x] among their owner references (empty when none does), every
    entry of a children map is [true], and the set is the same for every
    permutation of the input. *)
Theorem newObjectDirectory_children (objs : list Unstructured) (x : UID) :
  childrenOf (newObjectDirectory objs) x =
    list_to_set (map GetUID (filter (declaresOwner x) objs)) /\
  (forall u, u ∈ childrenOf (newObjectDirectory objs) x <->
             exists obj, obj ∈ objs /\ GetUID obj = u /\
                         x ∈ map refUID (GetOwnerReferences obj)) /\
  ((forall obj, obj ∈ objs -> x ∉ map refUID (GetOwnerReferences obj)) ->
   childrenOf (newObjectDirectory objs) x = ∅) /\
  (forall u b, childrenMap (newObjectDirectory objs) x !! u = Some b -> b = true) /\
  (forall objs', objs' ≡ₚ objs ->
     childrenOf (newObjectDirectory objs') x = childrenOf (newObjectDirectory objs) x).
Proof.
  split_and!.
  - apply childrenOf_newObjectDirectory.
  - apply elem_of_childrenOf.
  - apply childrenOf_no_owner.
  - intros u b. unfold childrenMap.
    destruct (ownership (newObjectDirectory objs) !! x) as [m|] eqn:E; simpl.
    + eapply (foldl_addObject_values objs); [|exact E]. simpl.
      intros ? ? ? ?. by rewrite lookup_empty.
    + by rewrite lookup_empty.
  - intros objs' Hp. rewrite !childrenOf_newObjectDirectory.
    apply list_to_set_perm_L. by rewrite Hp.
Qed.

Lemma newObjectDirectory_children_witness :
  [objD; objB; objA; objC] ≡ₚ [objA; objB; objC; objD] /\
  childrenOf (newObjectDirectory [objD; objB; objA; objC]) "A" =
  childrenOf (newObjectDirectory [objA; objB; objC; objD]) "A".
Proof.
  assert ([objD; objB; objA; objC] ≡ₚ [objA; objB; objC; objD]) as Hp.
  { transitivity ([objB; objA; objC] ++ [objD]).
    - apply Permutation_cons_append.
    - apply perm_swap. }
  split; [exact Hp|].
  apply (newObjectDirectory_children [objA; objB; objC; objD] "A"). exact Hp.
Defined.

Example ownership_ABCD :
  let d := newObjectDirectory [objA; objB; objC; objD] in
  childrenOf d "A" = {[ "B"; "C" ]} /\ childrenOf d "B" = {[ "D" ]} /\
  childrenOf d "C" = ∅ /\ childrenOf d "D" = ∅.
Proof.
  intros d. subst d. split_and!;
    rewrite childrenOf_newObjectDirectory; set_solver.
Qed.

(** ** Object fetcher *)

Section ObjectFetcherProperties.
Context {Server : Type}.
Variable List : GroupVersionResource -> string -> ListOptions -> Server ->
                Server * (error + UnstructuredList).

Lemma queryAPI_loop_success api ns pages last c out srv srv' fuel :
  answers List (GVR api) ns srv c (pages ++ [last]) srv' ->
  Forall (fun p => GetContinue p <> "") pages ->
  GetContinue last = "" ->
  (length pages < fuel)%nat ->
  queryAPI_loop List fuel api ns c out srv =
  Some (srv', (out ++ concat (map Items (pages ++ [last])), None)).
Proof.
  revert c out srv fuel.
  induction pages as [|p pages IH]; intros c out srv fuel Hans Hne Hlast Hfuel;
    (destruct fuel as [|fuel]; [simpl in Hfuel; lia|]); simpl in *.
  - destruct Hans as (srv1 & -> & ->). rewrite Hlast. simpl.
    by rewrite app_nil_r.
  - destruct Hans as (srv1 & -> & Hans). apply Forall_cons in Hne as [Hp Hne].
    apply String.eqb_neq in Hp. rewrite Hp.
    rewrite (IH _ _ _ fuel Hans Hne Hlast) by lia. by rewrite <- app_assoc.
Qed.

Lemma queryAPI_loop_running api ns pages c out srv srv' fuel :
  answers List (GVR api) ns srv c pages srv' ->
  Forall (fun p => GetContinue p <> "") pages ->
  (fuel <= length pages)%nat ->
  queryAPI_loop List fuel api ns c out srv = None.
Proof.
  revert c out srv pages. induction fuel as [|fuel IH];
    intros c out srv pages Hans Hne Hfuel; simpl; [done|].
  destruct pages as [|p pages]; simpl in *; [lia|].
  destruct Hans as (srv1 & -> & Hans). apply Forall_cons in Hne as [Hp Hne].
  apply String.eqb_neq in Hp. rewrite Hp. apply (IH _ _ _ pages); [done..|lia].
Qed.

Lemma queryAPI_loop_failure api ns pages c out srv srv1 srv2 err fuel :
  answers List (GVR api) ns srv c pages srv1 ->
  Forall (fun p => GetContinue p <> "") pages ->
  List (GVR api) ns {| Limit := 250; Continue := cursorAfter c pages |} srv1
    = (srv2, inl err) ->
  (length pages < fuel)%nat ->
  queryAPI_loop List fuel api ns c out srv =
  Some (srv2, ([], Some (ErrListing (GVR api) err))).
Proof.
  revert c out srv fuel.
  induction pages as [|p pages IH]; intros c out srv fuel Hans Hne Hfail Hfuel;
    (destruct fuel as [|fuel]; [simpl in Hfuel; lia|]); simpl in *.
  - subst srv1. unfold cursorAfter in Hfail. simpl in Hfail. by rewrite Hfail.
  - destruct Hans as (srv' & -> & Hans). apply Forall_cons in Hne as [Hp Hne].
    apply String.eqb_neq in Hp. rewrite Hp.
    apply IH; [done.. | lia].
Qed.

(** C4. [queryAPI] asks for pages of limit 250 from the empty cursor and
    follows each returned cursor; every request is for the group, version
    and resource name of the resource type, in the given namespace.  If the
    server answers with pages whose cursors are non-empty up to a last page
    with the empty cursor, the loop ends there and returns the items of all
    pages in request order (three pages C1, C2, "" give the three pages
    concatenated); before the empty cursor it is still running.  If a page
    request fails, it returns no items and the error wrapping the group,
    version and resource name of the type and the transport error. *)
Theorem queryAPI_pagination (api : apiResource) (ns : string) (srv : Server) :
  let target := {| gvrGroup := Group (gv api); gvrVersion := Version (gv api);
                   gvrResource := Name (r api) |} in
  (forall pages last srv' fuel,
     answers List target ns srv "" (pages ++ [last]) srv' ->
     Forall (fun p => GetContinue p <> "") pages ->
     GetContinue last = "" ->
     (length pages < fuel)%nat ->
     queryAPI List fuel api ns srv =
     Some (srv', (concat (map Items (pages ++ [last])), None))) /\
  (forall p1 p2 p3 srv1 srv2 srv3,
     List target ns {| Limit := 250; Continue := "" |} srv = (srv1, inr p1) ->
     GetContinue p1 <> "" ->
     List target ns {| Limit := 250; Continue := GetContinue p1 |} srv1
       = (srv2, inr p2) ->
     GetContinue p2 <> "" ->
     List target ns {| Limit := 250; Continue := GetContinue p2 |} srv2
       = (srv3, inr p3) ->
     GetContinue p3 = "" ->
     queryAPI List 3 api ns srv =
     Some (srv3, (Items p1 ++ Items p2 ++ Items p3, None))) /\
  (forall pages srv' fuel,
     answers List target ns srv "" pages srv' ->
     Forall (fun p => GetContinue p <> "") pages ->
     (fuel <= length pages)%nat ->
     queryAPI List fuel api ns srv = None) /\
  (forall pages srv1 srv2 err fuel,
     answers List target ns srv "" pages srv1 ->
     Forall (fun p => GetContinue p <> "") pages ->
     List target ns {| Limit := 250; Continue := cursorAfter "" pages |} srv1
       = (srv2, inl err) ->
     (length pages < fuel)%nat ->
     queryAPI List fuel api ns srv =
     Some (srv2,
           ([], Some (ErrListing
                        {| gvrGroup := Group (gv api); gvrVersion := Version (gv api);
                           gvrResource := Name (r api) |} err)))).
Proof.
  intros target. subst target.
  change {| gvrGroup := Group (gv api); gvrVersion := Version (gv api);
            gvrResource := Name (r api) |} with (GVR api).
  split_and!.
  - intros pages last srv' fuel Hans Hne Hlast Hfuel. unfold queryAPI.
    by rewrite (queryAPI_loop_success _ _ pages last _ _ _ srv').
  - intros p1 p2 p3 srv1 srv2 srv3 H1 Hc1 H2 Hc2 H3 Hc3. unfold queryAPI.
    rewrite (queryAPI_loop_success _ _ [p1; p2] p3 _ _ _ srv3); simpl.
    + by rewrite app_nil_r.
    + eauto 10.
    + by repeat constructor.
    + done.
    + lia.
  - intros pages srv' fuel Hans Hne Hfuel. unfold queryAPI.
    by apply (queryAPI_loop_running _ _ pages _ _ _ srv').
  - intros pages srv1 srv2 err fuel Hans Hne Hfail Hfuel. unfold queryAPI.
    by apply (queryAPI_loop_failure _ _ pages _ _ _ srv1).
Qed.
End ObjectFetcherProperties.

Lemma queryAPI_pagination_witness :
  queryAPI pagedList 3 coreServicesType "ns1" [] =
    Some ([ ({| gvrGroup := ""; gvrVersion := "v1"; gvrResource := "services" |},
             "ns1"%string, {| Limit := 250; Continue := "" |});
            ({| gvrGroup := ""; gvrVersion := "v1"; gvrResource := "services" |},
             "ns1"%string, {| Limit := 250; Continue := "C1" |});
            ({| gvrGroup := ""; gvrVersion := "v1"; gvrResource := "services" |},
             "ns1"%string, {| Limit := 250; Continue := "C2" |}) ],
          ([objA; objB; objC; objD], None)) /\
  queryAPI brokenList 3 coreServicesType "ns1" [] =
    Some (servicesRequests [""; "C1"; "C2"]%string,
          ([], Some (ErrListing
                       {| gvrGroup := ""; gvrVersion := "v1";
                          gvrResource := "services" |}
                       (External "connection reset")))).
Proof.
  destruct (queryAPI_pagination pagedList coreServicesType "ns1" [])
    as (_ & Hthree & _).
  destruct (queryAPI_pagination brokenList coreServicesType "ns1" [])
    as (_ & _ & _ & Hfail).
  split.
  - apply (Hthree {| Items := [objA]; GetContinue := "C1" |}
                  {| Items := [objB; objC]; GetContinue := "C2" |}
                  {| Items := [objD]; GetContinue := "" |}
                  (servicesRequests [""]%string)
                  (servicesRequests [""; "C1"]%string)); done.
  - apply (Hfail [ {| Items := [objA]; GetContinue := "C1" |};
                   {| Items := [objB; objC]; GetContinue := "C2" |} ]
                 (servicesRequests [""; "C1"]%string)).
    + simpl. eauto 10.
    + by repeat constructor.
    + reflexivity.
    + simpl. lia.
Defined.

(** ** Fleet fetcher *)

Section FleetFetcherProperties.
Variable query : apiResource -> string -> list Unstructured * option error.
Variable ns : string.

Lemma foldl_worker l out e :
  foldl (worker query ns) (out, e) l =
  (out ++ succeededItems query ns l, lastError query ns e l).
Proof.
  revert out e. induction l as [|a l IH]; intros out e.
  - simpl. by rewrite app_nil_r.
  - change (foldl (worker query ns) (out, e) (a :: l))
      with (foldl (worker query ns) (worker query ns (out, e) a) l).
    assert (worker query ns (out, e) a =
            (out ++ match query a ns with (v, None) => v | (_, Some _) => [] end,
             match (query a ns).2 with Some err => Some err | None => e end)) as ->.
    { unfold worker. destruct (query a ns) as [v [err|]]; simpl; [|done].
      by rewrite app_nil_r. }
    rewrite IH. unfold succeededItems, lastError. simpl. by rewrite <- app_assoc.
Qed.

Lemma lastError_None l e :
  lastError query ns e l = None <->
  e = None /\ Forall (fun a => (query a ns).2 = None) l.
Proof.
  revert e. induction l as [|a l IH]; intros e; unfold lastError in *; simpl.
  - split; [by intros -> | by intros [-> _]].
  - rewrite IH, Forall_cons. destruct ((query a ns).2); naive_solver.
Qed.

Lemma lastError_Some l e err :
  lastError query ns e l = Some err ->
  e = Some err \/ exists a, a ∈ l /\ (query a ns).2 = Some err.
Proof.
  revert e. induction l as [|a l IH]; intros e; unfold lastError in *; simpl.
  - by left.
  - intros [H|(b & Hb & H)]%IH.
    + destruct ((query a ns).2) as [err'|] eqn:E; [|by left].
      right. exists a. split; [left | congruence].
    + right. exists b. split; [by right | done].
Qed.

Lemma succeededItems_all_ok l :
  Forall (fun a => (query a ns).2 = None) l ->
  succeededItems query ns l = concat (map (fun a => (query a ns).1) l).
Proof.
  unfold succeededItems. induction 1 as [|a l Ha _ IH]; simpl; [done|].
  rewrite IH. by destruct (query a ns) as [v [err|]].
Qed.

Lemma elem_of_succeededItems o l :
  o ∈ succeededItems query ns l ->
  exists a, a ∈ l /\ (query a ns).2 = None /\ o ∈ (query a ns).1.
Proof.
  unfold succeededItems. rewrite list_elem_of_In, in_flat_map.
  intros (a & Ha%list_elem_of_In & Ho%list_elem_of_In). exists a.
  destruct (query a ns) as [v [err|]]; [by apply elem_of_nil in Ho | done].
Qed.
End FleetFetcherProperties.

Lemma elem_of_dispatched a apis :
  a ∈ dispatched apis <-> a ∈ apis /\ Namespaced (r a) = true.
Proof. unfold dispatched. rewrite list_elem_of_filter. naive_solver. Qed.

Lemma getAllResources_unfold query sched apis ns :
  getAllResources query sched apis ns =
  (succeededItems query ns (sched (dispatched apis)),
   lastError query ns None (sched (dispatched apis))).
Proof. unfold getAllResources, getAllResources_in. by rewrite foldl_worker. Qed.

Lemma succeededItems_ext query query' ns l :
  (forall a, a ∈ l -> query' a ns = query a ns) ->
  succeededItems query' ns l = succeededItems query ns l /\
  forall e, lastError query' ns e l = lastError query ns e l.
Proof.
  unfold succeededItems, lastError.
  induction l as [|a l IH]; intros H; simpl; [done|].
  rewrite (H a) by left. destruct IH as [IH1 IH2].
  { intros b Hb. apply H. by right. }
  by rewrite IH1.
Qed.

(** What [run] does with a failed fleet fetch: the wrapped error, no output. *)
Lemma run_fetch_failed P dc Get query sched kind name ns rmap api obj out err :
  findAPIs P dc = inr rmap ->
  resolveKind kind rmap = inr api ->
  Get (GVR api) (if Namespaced (r api) then Some ns else None) name = inr obj ->
  getAllResources query sched (resources rmap) ns = (out, Some err) ->
  run P dc Get query sched kind name ns = ([], Some (ErrQueryObjects err)).
Proof. unfold run. by intros -> -> -> ->. Qed.

(** C3 (as the code has it). [getAllResources] starts a fetch only for the
    namespace-scoped types.  When all of these fetches succeed it returns no
    error and the merged records, as many as the per-type counts add up to.
    When at least one fails it returns the error of a failing fetch, together
    with the records the succeeding fetches appended (the slice is not
    cleared); [run] then returns the wrapped error and uses none of them. *)
Theorem getAllResources_all_or_error
    (query : apiResource -> string -> list Unstructured * option error)
    (sched : list apiResource -> list apiResource)
    (apis : list apiResource) (ns : string) :
  scheduler sched ->
  let res := getAllResources query sched apis ns in
  (forall query',
     (forall a, a ∈ apis -> Namespaced (r a) = true -> query' a ns = query a ns) ->
     getAllResources query' sched apis ns = res) /\
  (forall o, o ∈ res.1 ->
     exists a, a ∈ apis /\ Namespaced (r a) = true /\
               (query a ns).2 = None /\ o ∈ (query a ns).1) /\
  ((forall a, a ∈ apis -> Namespaced (r a) = true -> (query a ns).2 = None) ->
     res.2 = None /\
     res.1 ≡ₚ concat (map (fun a => (query a ns).1) (dispatched apis)) /\
     length res.1 = sum_list (map (fun a => length (query a ns).1) (dispatched apis))) /\
  ((exists a, a ∈ apis /\ Namespaced (r a) = true /\ (query a ns).2 <> None) ->
     exists err a, res.2 = Some err /\ a ∈ apis /\ Namespaced (r a) = true /\
                   (query a ns).2 = Some err) /\
  res.1 = succeededItems query ns (sched (dispatched apis)) /\
  (forall P dc Get kind name rmap api obj err,
     findAPIs P dc = inr rmap ->
     resolveKind kind rmap = inr api ->
     Get (GVR api) (if Namespaced (r api) then Some ns else None) name = inr obj ->
     resources rmap = apis ->
     res.2 = Some err ->
     run P dc Get query sched kind name ns = ([], Some (ErrQueryObjects err))).
Proof.
  intros Hs res. subst res. rewrite getAllResources_unfold. simpl.
  assert (Hin : forall a, a ∈ sched (dispatched apis) <->
                          a ∈ apis /\ Namespaced (r a) = true).
  { intros a. by rewrite (Hs (dispatched apis)), elem_of_dispatched. }
  split_and!.
  - intros query' Hq. rewrite getAllResources_unfold.
    destruct (succeededItems_ext query query' ns (sched (dispatched apis))) as [-> ->];
      [|done].
    intros a [? ?]%Hin. by apply Hq.
  - intros o (a & Ha%Hin & Hok & Ho)%elem_of_succeededItems.
    exists a. naive_solver.
  - intros Hall.
    assert (Forall (fun a => (query a ns).2 = None) (sched (dispatched apis))) as Hok.
    { apply Forall_forall. intros a [? ?]%Hin. by apply Hall. }
    assert (succeededItems query ns (sched (dispatched apis)) ≡ₚ
            concat (map (fun a => (query a ns).1) (dispatched apis))) as Hp.
    { rewrite succeededItems_all_ok by done.
      rewrite <- !flat_map_concat_map. apply Permutation_flat_map, Hs. }
    split_and!.
    + by apply lastError_None.
    + done.
    + rewrite Hp, length_concat. by rewrite <- list_fmap_compose.
  - intros (a & Ha & Hn & Hfail).
    destruct (lastError query ns None (sched (dispatched apis))) as [err|] eqn:E.
    + apply lastError_Some in E as [E | (b & [? ?]%Hin & Hb)]; [done|].
      by exists err, b.
    + apply lastError_None in E as [_ E]. rewrite Forall_forall in E.
      destruct Hfail. apply E, Hin. done.
  - done.
  - intros P dc Get kind name rmap api obj err Hf Hr Hg <- He.
    eapply run_fetch_failed; eauto. rewrite getAllResources_unfold.
    by rewrite He.
Qed.

Lemma getAllResources_all_or_error_witness :
  scheduler (fun l => l) /\
  getAllResources healthyQuery (fun l => l) (rm_list sampleCatalog) "ns1" =
    ([objB; objC; objB; objC; objD; objD], None) /\
  (length (getAllResources healthyQuery (fun l => l) (rm_list sampleCatalog) "ns1").1
   = 2 + 2 + 1 + 1)%nat.
Proof.
  assert (scheduler (fun l => l)) as Hs by (intros l; reflexivity).
  split; [exact Hs|]. split; [reflexivity|].
  destruct (getAllResources_all_or_error healthyQuery (fun l => l)
              (rm_list sampleCatalog) "ns1" Hs) as (_ & _ & Hall & _).
  destruct Hall as (_ & _ & Hlen).
  - intros a Ha _. unfold healthyQuery.
    destruct (Name (r a) =? "services")%string; [done|].
    by destruct (Name (r a) =? "deployments")%string.
  - rewrite Hlen. reflexivity.
Defined.

(** C3, as stated, at a concrete input: one fetch fails, and the records of
    the fetch that succeeded are returned next to the error. *)
Lemma getAllResources_returns_partial_results :
  (sampleQuery appsDeploymentsType "ns1").2 <> None /\
  getAllResources sampleQuery (fun l => l)
    [coreServicesType; appsDeploymentsType] "ns1" =
  ([objB; objC],
   Some (ErrListing (GVR appsDeploymentsType) (External "connection reset"))) /\
  (getAllResources sampleQuery (fun l => l)
     [coreServicesType; appsDeploymentsType] "ns1").1 <> [].
Proof. split; [done|]. split; [reflexivity | done]. Qed.

(** ** The command *)

Lemma size_childrenMap_zero d x :
  size (childrenMap d x) = 0%nat <-> childrenOf d x = ∅.
Proof.
  unfold childrenOf. rewrite map_size_empty_iff. split.
  - intros ->. apply dom_empty_L.
  - apply dom_empty_iff_L.
Qed.

Lemma report_empty obj apiObjects :
  childrenOf (newObjectDirectory apiObjects) (GetUID obj) = ∅ ->
  report obj apiObjects = ([Line noOwnedMessage], None).
Proof.
  intros H%size_childrenMap_zero. unfold report. by rewrite H.
Qed.

Lemma report_owned obj apiObjects :
  childrenOf (newObjectDirectory apiObjects) (GetUID obj) <> ∅ ->
  report obj apiObjects = ([Directory (newObjectDirectory apiObjects)], None).
Proof.
  intros H. unfold report.
  destruct (Nat.eqb_spec (size (childrenMap (newObjectDirectory apiObjects) (GetUID obj))) 0)
    as [E%size_childrenMap_zero|E]; done.
Qed.

Lemma report_cases obj apiObjects :
  report obj apiObjects = ([Line noOwnedMessage], None) \/
  report obj apiObjects = ([Directory (newObjectDirectory apiObjects)], None).
Proof. unfold report. destruct (_ =? _)%nat; auto. Qed.

(** Every way [run] can end: an error and no output, or one line of output
    and no error. *)
Lemma run_cases P dc Get query sched kind name ns :
  (exists err, run P dc Get query sched kind name ns = ([], Some err)) \/
  run P dc Get query sched kind name ns = ([Line noOwnedMessage], None) \/
  (exists d, run P dc Get query sched kind name ns = ([Directory d], None)).
Proof.
  unfold run. destruct (findAPIs P dc) as [err|apis]; [eauto|].
  destruct (resolveKind kind apis) as [err|api]; [eauto|].
  destruct (Get _ _ _) as [err|obj]; [eauto|].
  destruct (getAllResources _ _ _ _) as [apiObjects [err|]]; [eauto|].
  destruct (report_cases obj apiObjects) as [-> | ->]; eauto.
Qed.

(** C9. Once the root object and all objects are fetched, [run] prints the
    message "No resources are owned by this object through
    ownerReferences." and returns nil when the children set of the root's
    UID is empty, which is the case when no fetched object declares the root
    as owner; when some fetched object does, the children set is not empty
    and [run] prints the directory, not the message.  A run that fails
    prints nothing, so the message only ever comes with a nil error. *)
Theorem run_reports_empty_ownership
    (P : string -> error + GroupVersion)
    (dc : list APIResourceList * option error)
    (Get : GroupVersionResource -> option string -> string -> error + Unstructured)
    (query : apiResource -> string -> list Unstructured * option error)
    (sched : list apiResource -> list apiResource)
    (kind name ns : string) :
  let result := run P dc Get query sched kind name ns in
  (forall rmap api obj apiObjects,
     findAPIs P dc = inr rmap ->
     resolveKind kind rmap = inr api ->
     Get (GVR api) (if Namespaced (r api) then Some ns else None) name = inr obj ->
     getAllResources query sched (resources rmap) ns = (apiObjects, None) ->
     let d := newObjectDirectory apiObjects in
     (childrenOf d (GetUID obj) = ∅ -> result = ([Line noOwnedMessage], None)) /\
     ((forall o, o ∈ apiObjects -> GetUID obj ∉ map refUID (GetOwnerReferences o)) ->
      result = ([Line noOwnedMessage], None)) /\
     ((exists o, o ∈ apiObjects /\ GetUID obj ∈ map refUID (GetOwnerReferences o)) ->
      childrenOf d (GetUID obj) <> ∅ /\
      result = ([Directory d], None) /\
      Line noOwnedMessage ∉ result.1)) /\
  (Line noOwnedMessage ∈ result.1 -> result = ([Line noOwnedMessage], None)) /\
  (result.2 <> None -> result.1 = []) /\
  noOwnedMessage = "No resources are owned by this object through ownerReferences." /\
  String.prefix "no resources are owned by this object" (ToLower noOwnedMessage) = true.
Proof.
  intros result. split_and!.
  - intros rmap api obj apiObjects Hf Hr Hg Hall d.
    assert (result = report obj apiObjects) as ->.
    { subst result. unfold run. by rewrite Hf, Hr, Hg, Hall. }
    pose proof (elem_of_childrenOf apiObjects (GetUID obj)) as Hmem.
    split_and!.
    + apply report_empty.
    + intros H. by apply report_empty, childrenOf_no_owner.
    + intros (o & Ho & Hd).
      assert (childrenOf d (GetUID obj) <> ∅) as Hne.
      { intros E. assert (GetUID o ∈ childrenOf d (GetUID obj)) as Hin.
        { apply Hmem. by exists o. }
        rewrite E in Hin. by apply not_elem_of_empty in Hin. }
      split; [done|]. rewrite report_owned by done. split; [done|].
      simpl. by intros [=]%list_elem_of_singleton.
  - subst result. intros Hin.
    destruct (run_cases P dc Get query sched kind name ns)
      as [[err E] | [E | [d E]]]; rewrite E in *; simpl in Hin.
    + by apply elem_of_nil in Hin.
    + done.
    + by apply list_elem_of_singleton in Hin.
  - subst result. intros Herr.
    destruct (run_cases P dc Get query sched kind name ns)
      as [[err E] | [E | [d E]]]; rewrite E in *; done.
  - reflexivity.
  - reflexivity.
Qed.

Lemma run_reports_empty_ownership_witness :
  run parseGroupVersion workloadDiscovery getPetc lonelyQuery (fun l => l)
      "workload" "petc" "ns1" = ([Line noOwnedMessage], None) /\
  run parseGroupVersion workloadDiscovery getPetc ownedQuery (fun l => l)
      "workload" "petc" "ns1" =
    ([Directory (newObjectDirectory [objA; objB; objC])], None).
Proof.
  split.
  - destruct (run_reports_empty_ownership parseGroupVersion workloadDiscovery
                getPetc lonelyQuery (fun l => l) "workload" "petc" "ns1")
      as (H & _).
    edestruct H as (_ & Hnone & _); [reflexivity..|].
    apply Hnone. intros o Ho%list_elem_of_singleton. subst o.
    simpl. apply not_elem_of_nil.
  - destruct (run_reports_empty_ownership parseGroupVersion workloadDiscovery
                getPetc ownedQuery (fun l => l) "workload" "petc" "ns1")
      as (H & _).
    edestruct H as (_ & _ & Hsome); [reflexivity..|].
    apply Hsome. exists objB. split; [right; left | simpl; left].
Defined.

(** * Further properties of the code *)

(** ** [findAPIs]: failures and composition *)

Lemma findAPIs_groups_app P l1 l2 rm :
  findAPIs_groups P (l1 ++ l2) rm =
  match findAPIs_groups P l1 rm with
  | inl err => inl err
  | inr rm1 => findAPIs_groups P l2 rm1
  end.
Proof.
  revert rm. induction l1 as [|g l1 IH]; intros rm; simpl; [done|].
  by destruct (P (GroupVersionString g)).
Qed.

Lemma findAPIs_groups_total P resList rm :
  Forall (parses P) resList -> exists rm', findAPIs_groups P resList rm = inr rm'.
Proof.
  intros H. revert rm. induction H as [|g l [gv Hg] _ IH]; intros rm; simpl.
  - by exists rm.
  - rewrite Hg. apply IH.
Qed.

Lemma findAPIs_groups_parses P resList rm rm' :
  findAPIs_groups P resList rm = inr rm' -> Forall (parses P) resList.
Proof.
  revert rm. induction resList as [|g l IH]; intros rm; simpl; [by constructor|].
  destruct (P (GroupVersionString g)) as [err|gv] eqn:E; [done|].
  intros H%IH. constructor; [by exists gv | done].
Qed.

Lemma discovered_app P l1 l2 :
  discovered P (l1 ++ l2) = discovered P l1 ++ discovered P l2.
Proof.
  induction l1 as [|g l1 IH]; simpl; [done|]. by rewrite IH, app_assoc.
Qed.

(** X1. [findAPIs] fails with the wrapped discovery error whenever the
    discovery call reports one, whatever groups came with it; otherwise it
    fails at the first group whose group/version string does not parse, with
    that string and the parse error, and it returns a catalog exactly when
    every group parses. *)
Theorem findAPIs_failures (P : string -> error + GroupVersion)
    (resList : list APIResourceList) :
  (forall e, findAPIs P (resList, Some e) = inl (ErrFetchGroups e)) /\
  (forall pre g post e,
     resList = pre ++ g :: post ->
     Forall (parses P) pre ->
     P (GroupVersionString g) = inl e ->
     findAPIs P (resList, None) =
     inl (ErrParseGroupVersion (GroupVersionString g) e)) /\
  ((exists rm, findAPIs P (resList, None) = inr rm) <-> Forall (parses P) resList).
Proof.
  split_and!.
  - done.
  - intros pre g post e -> Hpre Hg. unfold findAPIs.
    rewrite findAPIs_groups_app.
    destruct (findAPIs_groups_total P pre {| rm_list := []; rm_m := ∅ |} Hpre)
      as [rm1 ->].
    simpl. by rewrite Hg.
  - split.
    + intros [rm H]. by apply findAPIs_groups_parses in H.
    + apply findAPIs_groups_total.
Qed.

Lemma findAPIs_failures_witness :
  findAPIs parseGroupVersion (brokenDiscovery, None) =
  inl (ErrParseGroupVersion "apps/v1/extra"
         (External "unexpected GroupVersion string: apps/v1/extra")).
Proof.
  destruct (findAPIs_failures parseGroupVersion brokenDiscovery) as (_ & Hfail & _).
  apply (Hfail [ {| GroupVersionString := "v1"; APIResources := [coreServices] |} ]
               {| GroupVersionString := "apps/v1/extra";
                  APIResources := [appsDeployments] |}
               [ {| GroupVersionString := "serving.knative.dev/v1";
                    APIResources := [knativeServices] |} ]).
  - reflexivity.
  - constructor; [|constructor]. by exists coreV1.
  - reflexivity.
Defined.

(** X2. The catalog of a discovery response made of two parts is the
    catalog of the first part followed, in the list and under every key, by
    the catalog of the second part. *)
Theorem findAPIs_append (P : string -> error + GroupVersion)
    (l1 l2 : list APIResourceList) (rm1 rm2 : resourceMap) :
  findAPIs P (l1, None) = inr rm1 ->
  findAPIs P (l2, None) = inr rm2 ->
  exists rm,
    findAPIs P (l1 ++ l2, None) = inr rm /\
    rm_list rm = rm_list rm1 ++ rm_list rm2 /\
    (forall key, at_key (rm_m rm) key =
                 at_key (rm_m rm1) key ++ at_key (rm_m rm2) key) /\
    (forall s, lookup rm s = lookup rm1 s ++ lookup rm2 s).
Proof.
  intros H1 H2.
  assert (Forall (parses P) (l1 ++ l2)) as Hp.
  { apply Forall_app. split; eapply findAPIs_groups_parses; eauto. }
  destruct (findAPIs_groups_total P _ {| rm_list := []; rm_m := ∅ |} Hp) as [rm H].
  exists rm. split; [done|].
  apply findAPIs_spec in H1 as [Hl1 Hm1]. apply findAPIs_spec in H2 as [Hl2 Hm2].
  apply (findAPIs_spec P (l1 ++ l2)) in H as [Hl Hm].
  assert (forall key, at_key (rm_m rm) key =
                      at_key (rm_m rm1) key ++ at_key (rm_m rm2) key) as Hkey.
  { intros key. by rewrite Hm, Hm1, Hm2, discovered_app, entriesAt_app. }
  split_and!.
  - by rewrite Hl, Hl1, Hl2, discovered_app.
  - done.
  - intros s. apply Hkey.
Qed.

Lemma findAPIs_append_witness :
  exists rm,
    findAPIs parseGroupVersion (extensionDiscovery ++ sampleDiscovery, None) = inr rm /\
    rm_list rm = rm_list extensionCatalog ++ rm_list sampleCatalog.
Proof.
  destruct (findAPIs_append parseGroupVersion extensionDiscovery sampleDiscovery
              extensionCatalog sampleCatalog eq_refl eq_refl)
    as (rm & H & Hl & _).
  by exists rm.
Defined.

(** ** Keys that repeat among the aliases of one type *)

Lemma occurrences_cons k x l :
  occurrences k (x :: l) = ((if decide (x = k) then 1 else 0) + occurrences k l)%nat.
Proof. unfold occurrences. rewrite filter_cons. by case_decide. Qed.

Lemma occurrences_app k l1 l2 :
  occurrences k (l1 ++ l2) = (occurrences k l1 + occurrences k l2)%nat.
Proof. unfold occurrences. by rewrite filter_app, length_app. Qed.

Lemma occurrences_singular_plural a g :
  singularOf a = Name a -> (2 <= occurrences (Name a) (apiNames a g))%nat.
Proof.
  intros Hs. rewrite apiNames_flat_map. unfold baseNames. simpl.
  rewrite Hs, !occurrences_cons, !decide_True by done. lia.
Qed.

Lemma overrideType_other kind v :
  ToLower kind ∉ ["svc"; "service"; "services";
                  "deploy"; "deployment"; "deployments"] ->
  overrideType kind v = (apiResource_zero, false).
Proof.
  intros Hk. unfold overrideType.
  rewrite !bool_decide_eq_false_2; [done | |]; set_unfold; naive_solver.
Qed.

Lemma resolveKind_several kind apis :
  (overrideType kind apis).2 = false ->
  (2 <= length (lookup apis kind))%nat ->
  resolveKind kind apis =
  inl (ErrAmbiguousKind kind (Join (map fullAPIName (lookup apis kind)) ", ")).
Proof.
  intros Hov Hlen. unfold resolveKind.
  destruct (overrideType kind apis) as [k fired]. simpl in Hov. subst fired.
  rewrite foldl_names.
  destruct (lookup apis kind) as [|a [|b l]]; simpl in Hlen; [lia | lia | done].
Qed.

(** X3. A type whose singular base name equals its plural name is stored
    twice in a row under that key, so resolving the name (when it is
    lower-case and not overridden) fails with the ambiguity error although
    only one type carries it. *)
Theorem repeated_alias_is_ambiguous (P : string -> error + GroupVersion)
    (resList : list APIResourceList) (rm : resourceMap) (a : apiResource) :
  findAPIs P (resList, None) = inr rm ->
  a ∈ rm_list rm ->
  singularOf (r a) = Name (r a) ->
  (exists l1 l2, at_key (rm_m rm) (Name (r a)) = l1 ++ a :: a :: l2) /\
  (ToLower (Name (r a)) = Name (r a) ->
   (overrideType (Name (r a)) rm).2 = false ->
   resolveKind (Name (r a)) rm =
   inl (ErrAmbiguousKind (Name (r a))
          (Join (map fullAPIName (lookup rm (Name (r a)))) ", "))).
Proof.
  intros [Hl Hm]%findAPIs_spec Ha Hs.
  assert (exists l1 l2, at_key (rm_m rm) (Name (r a)) = l1 ++ a :: a :: l2) as Hdup.
  { rewrite Hl in Ha. apply list_elem_of_split in Ha as (pre & post & Hd).
    rewrite Hm, Hd, entriesAt_app. unfold entriesAt at 2. simpl.
    pose proof (occurrences_singular_plural (r a) (gv a) Hs) as Hocc.
    destruct (occurrences (Name (r a)) (apiNames (r a) (gv a))) as [|[|n]]; [lia..|].
    simpl. eauto. }
  split; [done|]. intros Hlow Hov. apply resolveKind_several; [done|].
  unfold lookup. rewrite Hlow. destruct Hdup as (l1 & l2 & ->).
  rewrite length_app. simpl. lia.
Qed.

Lemma repeated_alias_is_ambiguous_witness :
  resolveKind "endpoints" endpointsCatalog =
  inl (ErrAmbiguousKind "endpoints" "endpoints.v1., endpoints.v1.").
Proof.
  destruct (repeated_alias_is_ambiguous parseGroupVersion endpointsDiscovery
              endpointsCatalog {| r := coreEndpoints; gv := coreV1 |} eq_refl)
    as [_ H].
  - vm_compute. left.
  - reflexivity.
  - apply H; reflexivity.
Defined.

(** ** The resolver and the case of the kind *)

(** X4. Two spellings of a kind that lower-case to the same string are
    resolved alike: the same override, the same index entries, the same
    resource type, and a not-found failure for one exactly when for the
    other. *)
Theorem resolver_ignores_case (k1 k2 : string) (v : resourceMap) :
  ToLower k1 = ToLower k2 ->
  overrideType k1 v = overrideType k2 v /\
  lookup v k1 = lookup v k2 /\
  (forall a, resolveKind k1 v = inr a <-> resolveKind k2 v = inr a) /\
  (resolveKind k1 v = inl (ErrKindNotFound k1) <->
   resolveKind k2 v = inl (ErrKindNotFound k2)).
Proof.
  intros H.
  assert (overrideType k1 v = overrideType k2 v) as Hov.
  { unfold overrideType. by rewrite H. }
  assert (lookup v k1 = lookup v k2) as Hlk.
  { unfold lookup. by rewrite H. }
  split; [done|]. split; [done|].
  unfold resolveKind. rewrite Hov, Hlk.
  destruct (overrideType k2 v) as [k []]; [done|].
  destruct (lookup v k2) as [|x [|y l]]; split; done.
Qed.

Lemma resolver_ignores_case_witness :
  resolveKind "KSVC" sampleCatalog = resolveKind "ksvc" sampleCatalog /\
  exists a, resolveKind "KSVC" sampleCatalog = inr a.
Proof.
  split; [vm_compute; reflexivity|].
  destruct (resolver_ignores_case "KSVC" "ksvc" sampleCatalog eq_refl)
    as (_ & _ & H & _).
  exists {| r := knativeServices;
            gv := {| Group := "serving.knative.dev"; Version := "v1" |} |}.
  apply H. vm_compute. reflexivity.
Defined.

(** X5. The qualified name printed for a type in the ambiguity error,
    resource.version.group, is a key of that type and is never overridden;
    when it is lower-case, resolving it is never a not-found failure: it
    gives the type back, or the ambiguity error if other types share the
    key. *)
Theorem qualified_name_resolves (P : string -> error + GroupVersion)
    (resList : list APIResourceList) (rm : resourceMap) (a : apiResource) :
  findAPIs P (resList, None) = inr rm ->
  a ∈ rm_list rm ->
  a ∈ at_key (rm_m rm) (fullAPIName a) /\
  overrideType (fullAPIName a) rm = (apiResource_zero, false) /\
  (ToLower (fullAPIName a) = fullAPIName a ->
   a ∈ lookup rm (fullAPIName a) /\
   (resolveKind (fullAPIName a) rm = inr a \/
    exists names,
      resolveKind (fullAPIName a) rm = inl (ErrAmbiguousKind (fullAPIName a) names))).
Proof.
  intros [Hl Hm]%findAPIs_spec Ha.
  assert (a ∈ at_key (rm_m rm) (fullAPIName a)) as Hin.
  { rewrite Hm. apply elem_of_entriesAt. split; [by rewrite <- Hl|].
    apply elem_of_apiNames. exists (Name (r a)). split.
    - unfold baseNames. right. left.
    - right. right. done. }
  assert (overrideType (fullAPIName a) rm = (apiResource_zero, false)) as Hov.
  { apply overrideType_other. intros Hw.
    assert (dotfree (ToLower (fullAPIName a)) = true) as Hd.
    { set_unfold. destruct Hw as [->|[->|[->|[->|[->|[->|[]]]]]]]; reflexivity. }
    rewrite dotfree_ToLower in Hd. unfold fullAPIName in Hd. simpl in Hd.
    by rewrite dotfree_app_dot in Hd. }
  split; [done|]. split; [done|]. intros Hlow.
  assert (a ∈ lookup rm (fullAPIName a)) as Hlk.
  { unfold lookup. by rewrite Hlow. }
  split; [done|]. unfold resolveKind. rewrite Hov.
  destruct (lookup rm (fullAPIName a)) as [|x [|y l]].
  - by apply elem_of_nil in Hlk.
  - apply list_elem_of_singleton in Hlk as ->. by left.
  - right. eauto.
Qed.

Lemma qualified_name_resolves_witness :
  resolveKind "services.v1.serving.knative.dev" sampleCatalog =
  inr {| r := knativeServices;
         gv := {| Group := "serving.knative.dev"; Version := "v1" |} |}.
Proof.
  destruct (qualified_name_resolves parseGroupVersion sampleDiscovery sampleCatalog
              {| r := knativeServices;
                 gv := {| Group := "serving.knative.dev"; Version := "v1" |} |}
              eq_refl) as (_ & _ & H).
  - vm_compute. left.
  - destruct (H eq_refl) as [_ [Hr | [names Hr]]]; [exact Hr|].
    vm_compute in Hr. discriminate Hr.
Defined.

(** ** A discovery response without listable types *)

Lemma foldl_addResource_none g l rm :
  (forall a, a ∈ l -> contains (Verbs a) "list" = false) ->
  foldl (addResource g) rm l = rm.
Proof.
  revert rm. induction l as [|a l IH]; intros rm H; simpl; [done|].
  rewrite addResource_skip by (apply H; left). apply IH. intros b Hb. apply H. by right.
Qed.

Lemma resolveKind_empty kind :
  resolveKind kind {| rm_list := []; rm_m := ∅ |} = inl (ErrKindNotFound kind).
Proof.
  unfold resolveKind, overrideType, lookup, at_key. simpl.
  rewrite !lookup_empty. simpl. by repeat case_bool_decide.
Qed.

(** X6. When every group parses and no descriptor supports "list" (in
    particular for an empty discovery response) the catalog is empty, every
    kind, the overridden ones included, fails with the not-found error, and
    [run] ends there without getting or listing any object. *)
Theorem nothing_listable_nothing_found (P : string -> error + GroupVersion)
    (resList : list APIResourceList) (kind : string) :
  Forall (parses P) resList ->
  (forall g a, g ∈ resList -> a ∈ APIResources g ->
               contains (Verbs a) "list" = false) ->
  findAPIs P (resList, None) = inr {| rm_list := []; rm_m := ∅ |} /\
  resolveKind kind {| rm_list := []; rm_m := ∅ |} = inl (ErrKindNotFound kind) /\
  (forall Get query sched name ns,
     run P (resList, None) Get query sched kind name ns =
     ([], Some (ErrKindNotFound kind))).
Proof.
  intros Hp Hno.
  assert (findAPIs P (resList, None) = inr {| rm_list := []; rm_m := ∅ |}) as Hf.
  { unfold findAPIs. generalize {| rm_list := []; rm_m := ∅ |}.
    induction Hp as [|g l [gv Hg] _ IH]; intros rm; simpl; [done|].
    rewrite Hg, foldl_addResource_none.
    - apply IH. intros g' a Hg' Ha. apply (Hno g'); [by right | done].
    - intros a Ha. apply (Hno g); [left | done]. }
  split; [done|]. split; [apply resolveKind_empty|].
  intros Get query sched name ns. unfold run. by rewrite Hf, resolveKind_empty.
Qed.

Lemma nothing_listable_nothing_found_witness :
  findAPIs parseGroupVersion (writeOnlyDiscovery, None) =
    inr {| rm_list := []; rm_m := ∅ |} /\
  resolveKind "binding" {| rm_list := []; rm_m := ∅ |} =
    inl (ErrKindNotFound "binding").
Proof.
  destruct (nothing_listable_nothing_found parseGroupVersion writeOnlyDiscovery
              "binding") as (Hf & Hr & _).
  - constructor; [by exists coreV1 | constructor].
  - intros g a Hg%list_elem_of_singleton Ha. subst g.
    apply list_elem_of_singleton in Ha. by subst a.
  - by split.
Defined.

(** ** The directory: identity map and owner keys *)

Lemma newObjectDirectory_snoc objs obj :
  newObjectDirectory (objs ++ [obj]) = addObject (newObjectDirectory objs) obj.
Proof. unfold newObjectDirectory. apply foldl_snoc. Qed.

Lemma items_lookup objs u :
  items (newObjectDirectory objs) !! u =
  last (filter (fun o => GetUID o = u) objs).
Proof.
  induction objs as [|obj objs IH] using rev_ind; [done|].
  rewrite newObjectDirectory_snoc, filter_app. simpl.
  destruct (decide (GetUID obj = u)) as [E|E].
  - rewrite filter_cons_True by done. rewrite filter_nil, last_snoc.
    rewrite <- E. apply lookup_insert_eq.
  - rewrite filter_cons_False by done. rewrite filter_nil, app_nil_r.
    by rewrite lookup_insert_ne.
Qed.

(** X7. The identity map of the directory holds, for a UID, the last input
    record that carries it (a later record replaces an earlier one with the
    same UID), and nothing for a UID no record carries; its keys are the
    UIDs of the input. *)
Theorem items_last_record_wins (objs : list Unstructured) (u : UID) :
  items (newObjectDirectory objs) !! u = last (filter (fun o => GetUID o = u) objs) /\
  (forall obj, items (newObjectDirectory objs) !! u = Some obj ->
     GetUID obj = u /\
     exists before after, objs = before ++ obj :: after /\
                          Forall (fun o => GetUID o <> u) after) /\
  (items (newObjectDirectory objs) !! u = None <-> u ∉ map GetUID objs) /\
  dom (items (newObjectDirectory objs)) = list_to_set (map GetUID objs).
Proof.
  assert (Hnone : items (newObjectDirectory objs) !! u = None <->
                  u ∉ map GetUID objs).
  { rewrite items_lookup, last_None. split.
    - intros Hf (o & -> & Ho)%list_elem_of_fmap.
      assert (o ∈ filter (fun o' => GetUID o' = GetUID o) objs) as Hin
        by by apply list_elem_of_filter.
      rewrite Hf in Hin. by apply elem_of_nil in Hin.
    - intros Hu. destruct (filter _ objs) as [|o l] eqn:E; [done|].
      assert (o ∈ filter (fun o' => GetUID o' = u) objs) as Hin by (rewrite E; left).
      apply list_elem_of_filter in Hin as [<- Hin]. destruct Hu.
      apply list_elem_of_fmap. by exists o. }
  split_and!.
  - apply items_lookup.
  - intros obj. rewrite items_lookup. intros H.
    pose proof (last_Some_elem_of _ _ H) as [Hu _]%list_elem_of_filter.
    split; [done|]. by apply last_filter_Some in H.
  - done.
  - apply set_eq. intros x. rewrite elem_of_dom, elem_of_list_to_set.
    split.
    + intros [obj Hx]. destruct (decide (x ∈ map GetUID objs)) as [|Hn]; [done|].
      exfalso. revert Hx. clear Hnone. rewrite items_lookup. intros Hx.
      apply last_Some_elem_of, list_elem_of_filter in Hx as [<- Hin].
      apply Hn, list_elem_of_fmap. by exists obj.
    + intros Hx. apply not_eq_None_Some. clear Hnone. rewrite items_lookup, last_None.
      apply list_elem_of_fmap in Hx as (o & -> & Ho). intros Hf.
      assert (o ∈ filter (fun o' => GetUID o' = GetUID o) objs) as Hin
        by by apply list_elem_of_filter.
      rewrite Hf in Hin. by apply elem_of_nil in Hin.
Qed.

Lemma items_last_record_wins_witness :
  let objA' := {| GetName := "petc-restored"; GetUID := "A";
                  GetOwnerReferences := [] |} in
  items (newObjectDirectory [objA; objB; objA']) !! "A" = Some objA' /\
  exists before after,
    [objA; objB; objA'] = before ++ objA' :: after /\
    Forall (fun o => GetUID o <> "A") after.
Proof.
  intros objA'. split; [reflexivity|].
  destruct (items_last_record_wins [objA; objB; objA'] "A") as (_ & H & _).
  apply (H objA'). reflexivity.
Defined.

Lemma dom_addOwner child own ref :
  dom (addOwner child own ref) = {[refUID ref]} ∪ dom own.
Proof.
  unfold addOwner. rewrite dom_insert_L.
  destruct (own !! refUID ref); [done|]. rewrite dom_insert_L. set_solver.
Qed.

Lemma dom_foldl_addOwner child refs own :
  dom (foldl (addOwner child) own refs) = dom own ∪ list_to_set (map refUID refs).
Proof.
  revert own. induction refs as [|ref refs IH]; intros own; simpl.
  - set_solver.
  - rewrite IH, dom_addOwner. set_solver.
Qed.

Lemma dom_ownership_foldl objs d :
  dom (ownership (foldl addObject d objs)) =
  dom (ownership d) ∪
  list_to_set (flat_map (fun o => map refUID (GetOwnerReferences o)) objs).
Proof.
  revert d. induction objs as [|obj objs IH]; intros d; simpl.
  - set_solver.
  - rewrite IH. simpl. rewrite dom_foldl_addOwner, list_to_set_app_L. set_solver.
Qed.

(** X8. The keys of the owner index are exactly the UIDs that some input
    record names as an owner, whether or not an object with that UID was
    fetched; no key holds an empty children map, so a key is present exactly
    when the children set is not empty. *)
Theorem ownership_keys_are_declared_owners (objs : list Unstructured) :
  let d := newObjectDirectory objs in
  dom (ownership d) =
    list_to_set (flat_map (fun o => map refUID (GetOwnerReferences o)) objs) /\
  (forall x m, ownership d !! x = Some m -> m <> ∅) /\
  (forall x, is_Some (ownership d !! x) <-> childrenOf d x <> ∅).
Proof.
  intros d.
  assert (Hdom : dom (ownership d) =
    list_to_set (flat_map (fun o => map refUID (GetOwnerReferences o)) objs)).
  { subst d. unfold newObjectDirectory. rewrite dom_ownership_foldl. simpl.
    rewrite dom_empty_L. set_solver. }
  assert (Hne : forall x m, ownership d !! x = Some m -> m <> ∅).
  { intros x m Hx Hm.
    assert (x ∈ dom (ownership d)) as Hin by (apply elem_of_dom; eauto).
    rewrite Hdom, elem_of_list_to_set, list_elem_of_In, in_flat_map in Hin.
    destruct Hin as (o & Ho%list_elem_of_In & Hd%list_elem_of_In).
    assert (GetUID o ∈ childrenOf d x) as Hc.
    { apply elem_of_childrenOf. by exists o. }
    unfold childrenOf, childrenMap in Hc. rewrite Hx in Hc. simpl in Hc.
    rewrite Hm, dom_empty_L in Hc. by apply not_elem_of_empty in Hc. }
  split_and!; [done | done |].
  intros x. unfold childrenOf, childrenMap. split.
  - intros [m Hx]. rewrite Hx. simpl. intros Hd%dom_empty_iff_L.
    by apply (Hne x m).
  - destruct (ownership d !! x); [eauto|]. simpl. by rewrite dom_empty_L.
Qed.

Lemma ownership_keys_are_declared_owners_witness :
  is_Some (ownership (newObjectDirectory [objB; objD]) !! "A") /\
  items (newObjectDirectory [objB; objD]) !! "A" = None /\
  childrenOf (newObjectDirectory [objB; objD]) "A" <> ∅.
Proof.
  assert (is_Some (ownership (newObjectDirectory [objB; objD]) !! "A")) as Hs.
  { eexists. reflexivity. }
  split; [exact Hs|]. split; [reflexivity|].
  destruct (ownership_keys_are_declared_owners [objB; objD]) as (_ & _ & H).
  apply H. exact Hs.
Defined.

(** X9. The children set over two batches of records is the union of the
    children sets of the batches, so repeating records changes nothing; and
    when the records have distinct UIDs the number of children of [x] is the
    number of records that declare [x] as owner. *)
Theorem children_of_batches (l1 l2 : list Unstructured) (x : UID) :
  childrenOf (newObjectDirectory (l1 ++ l2)) x =
    childrenOf (newObjectDirectory l1) x ∪ childrenOf (newObjectDirectory l2) x /\
  childrenOf (newObjectDirectory (l1 ++ l1)) x = childrenOf (newObjectDirectory l1) x /\
  (NoDup (map GetUID l1) ->
   size (childrenMap (newObjectDirectory l1) x) =
   length (filter (declaresOwner x) l1)).
Proof.
  assert (Happ : forall a b, childrenOf (newObjectDirectory (a ++ b)) x =
    childrenOf (newObjectDirectory a) x ∪ childrenOf (newObjectDirectory b) x).
  { intros a b. rewrite !childrenOf_newObjectDirectory, filter_app, map_app.
    apply list_to_set_app_L. }
  split_and!.
  - apply Happ.
  - rewrite Happ. set_solver.
  - intros Hnd.
    rewrite <- (size_dom (D := gset UID)). fold (childrenOf (newObjectDirectory l1) x).
    rewrite childrenOf_newObjectDirectory, size_list_to_set.
    + apply length_map.
    + eapply sublist_NoDup; [exact Hnd|]. apply fmap_sublist, sublist_filter.
Qed.

Lemma children_of_batches_witness :
  NoDup (map GetUID [objA; objB; objC; objD]) /\
  size (childrenMap (newObjectDirectory [objA; objB; objC; objD]) "A") = 2%nat.
Proof.
  assert (NoDup (map GetUID [objA; objB; objC; objD])) as Hnd.
  { simpl. repeat (constructor; [set_solver|]). constructor. }
  split; [exact Hnd|].
  destruct (children_of_batches [objA; objB; objC; objD] [] "A") as (_ & _ & H).
  rewrite (H Hnd). reflexivity.
Defined.

(** ** [queryAPI] against an arbitrary server *)

Section QueryAPIAnyServer.
Context {Server : Type}.
Variable List : GroupVersionResource -> string -> ListOptions -> Server ->
                Server * (error + UnstructuredList).

(** A run of the loop that ends with an error: the server answered some
    pages with non-empty cursors and then failed the next request. *)
Lemma queryAPI_loop_error fuel api ns next out srv srv' out' err :
  queryAPI_loop List fuel api ns next out srv = Some (srv', (out', Some err)) ->
  out' = [] /\
  exists pages srv0 e,
    answers List (GVR api) ns srv next pages srv0 /\
    Forall (fun p => GetContinue p <> "") pages /\
    List (GVR api) ns {| Limit := 250; Continue := cursorAfter next pages |} srv0
      = (srv', inl e) /\
    err = ErrListing (GVR api) e.
Proof.
  revert next out srv. induction fuel as [|fuel IH]; intros next out srv; simpl; [done|].
  destruct (List _ _ _ srv) as [srv1 [e|p]] eqn:E.
  - intros [= <- <- <-]. split; [done|]. exists [], srv, e. by repeat split.
  - destruct (String.eqb_spec (GetContinue p) "") as [|Hc]; [done|].
    intros [Ho (pages & srv0 & e & Hans & Hne & Hl & He)]%IH. split; [done|].
    exists (p :: pages), srv0, e. split_and!; [|by constructor|done..].
    simpl. eauto.
Qed.

(** A run of the loop that ends without error: the server answered pages
    with non-empty cursors and then a last page with the empty cursor. *)
Lemma queryAPI_loop_ok fuel api ns next out srv srv' out' :
  queryAPI_loop List fuel api ns next out srv = Some (srv', (out', None)) ->
  exists pages last,
    answers List (GVR api) ns srv next (pages ++ [last]) srv' /\
    Forall (fun p => GetContinue p <> "") pages /\
    GetContinue last = "" /\
    out' = out ++ concat (map Items (pages ++ [last])).
Proof.
  revert next out srv. induction fuel as [|fuel IH]; intros next out srv; simpl; [done|].
  destruct (List _ _ _ srv) as [srv1 [e|p]] eqn:E; [done|].
  destruct (String.eqb_spec (GetContinue p) "") as [Hc|Hc].
  - intros [= <- <-]. exists [], p. simpl. rewrite app_nil_r. split_and!; eauto.
  - intros (pages & last & Hans & Hne & Hlast & ->)%IH.
    exists (p :: pages), last. split_and!; [|by constructor|done|].
    + simpl. eauto.
    + simpl. by rewrite <- app_assoc.
Qed.

Lemma queryAPI_loop_more_fuel fuel fuel' api ns next out srv res :
  queryAPI_loop List fuel api ns next out srv = Some res ->
  (fuel <= fuel')%nat ->
  queryAPI_loop List fuel' api ns next out srv = Some res.
Proof.
  revert fuel' next out srv. induction fuel as [|fuel IH];
    intros fuel' next out srv; simpl; [done|].
  intros H Hle. destruct fuel' as [|fuel']; [lia|]. simpl.
  destruct (List _ _ _ srv) as [srv1 [e|p]]; [done|].
  destruct (String.eqb (GetContinue p) ""); [done|].
  apply IH; [done | lia].
Qed.

(** X10. Whatever the server does, [queryAPI] never returns items together
    with an error.  When it returns an error, it returns no items, the
    server has answered a chain of pages with non-empty cursors from the
    empty cursor and then failed the next request, and the error wraps the
    group, version and resource name of the type and the transport error of
    that failed request.  When it returns no error, the items are those of
    a chain of pages ending with the empty cursor, in order.  Once the loop
    has ended, a larger bound on the number of requests gives the same
    result. *)
Theorem queryAPI_all_or_nothing (fuel : nat) (api : apiResource) (ns : string)
    (srv : Server) :
  let target := {| gvrGroup := Group (gv api); gvrVersion := Version (gv api);
                   gvrResource := Name (r api) |} in
  (forall srv' out err,
     queryAPI List fuel api ns srv = Some (srv', (out, Some err)) ->
     out = [] /\
     exists pages srv0 e,
       answers List target ns srv "" pages srv0 /\
       Forall (fun p => GetContinue p <> "") pages /\
       List target ns {| Limit := 250; Continue := cursorAfter "" pages |} srv0
         = (srv', inl e) /\
       err = ErrListing
               {| gvrGroup := Group (gv api); gvrVersion := Version (gv api);
                  gvrResource := Name (r api) |} e) /\
  (forall srv' out,
     queryAPI List fuel api ns srv = Some (srv', (out, None)) ->
     exists pages last,
       answers List target ns srv "" (pages ++ [last]) srv' /\
       Forall (fun p => GetContinue p <> "") pages /\
       GetContinue last = "" /\
       out = concat (map Items (pages ++ [last]))) /\
  (forall res fuel',
     queryAPI List fuel api ns srv = Some res -> (fuel <= fuel')%nat ->
     queryAPI List fuel' api ns srv = Some res).
Proof.
  intros target. subst target.
  change {| gvrGroup := Group (gv api); gvrVersion := Version (gv api);
            gvrResource := Name (r api) |} with (GVR api).
  split_and!.
  - intros srv' out err. apply queryAPI_loop_error.
  - intros srv' out H. by apply queryAPI_loop_ok in H.
  - intros res fuel'. apply queryAPI_loop_more_fuel.
Qed.

Lemma queryAPI_loop_stuck (I : Server -> Prop) api ns fuel next out srv :
  (forall s c, I s -> exists s' p,
     List (GVR api) ns {| Limit := 250; Continue := c |} s = (s', inr p) /\
     GetContinue p <> "" /\ I s') ->
  I srv ->
  queryAPI_loop List fuel api ns next out srv = None.
Proof.
  intros Hstep. revert next out srv.
  induction fuel as [|fuel IH]; intros next out srv Hi; simpl; [done|].
  destruct (Hstep srv next Hi) as (s' & p & -> & Hc & Hi').
  apply String.eqb_neq in Hc. rewrite Hc. by apply IH.
Qed.

(** X11. The loop of [queryAPI] has no bound of its own: against a server
    that keeps answering with a non-empty cursor it is still running after
    any number of requests. *)
Theorem queryAPI_runs_while_cursor (I : Server -> Prop) (api : apiResource)
    (ns : string) (srv : Server) :
  (forall s c, I s -> exists s' p,
     List (GVR api) ns {| Limit := 250; Continue := c |} s = (s', inr p) /\
     GetContinue p <> "" /\ I s') ->
  I srv ->
  forall fuel, queryAPI List fuel api ns srv = None.
Proof. intros Hstep Hi fuel. by apply (queryAPI_loop_stuck I). Qed.

Lemma queryAPI_loop_recorded fuel api ns next out srv log0 srv' log res :
  queryAPI_loop (recorded List) fuel api ns next out (srv, log0)
    = Some ((srv', log), res) ->
  queryAPI_loop List fuel api ns next out srv = Some (srv', res) /\
  exists cursors,
    log = log0 ++ requestsFor api ns (next :: cursors) /\
    (S (length cursors) <= fuel)%nat.
Proof.
  revert next out srv log0. induction fuel as [|fuel IH];
    intros next out srv log0; simpl; [done|].
  unfold recorded at 1. simpl.
  destruct (List _ _ _ srv) as [srv1 [e|p]].
  - intros [= <- <- <-]. split; [done|]. exists []. split; [done | simpl; lia].
  - destruct (String.eqb (GetContinue p) "").
    + intros [= <- <- <-]. split; [done|]. exists []. split; [done | simpl; lia].
    + intros (Hq & cursors & -> & Hlen)%IH. split; [done|].
      exists (GetContinue p :: cursors). split; [|simpl; lia].
      by rewrite <- app_assoc.
Qed.

(** The loop only consults the server at its own requests. *)
Lemma queryAPI_loop_agree (List' : GroupVersionResource -> string -> ListOptions ->
                                   Server -> Server * (error + UnstructuredList))
    fuel api ns next out srv :
  (forall c s, List' (GVR api) ns {| Limit := 250; Continue := c |} s =
               List (GVR api) ns {| Limit := 250; Continue := c |} s) ->
  queryAPI_loop List' fuel api ns next out srv =
  queryAPI_loop List fuel api ns next out srv.
Proof.
  intros Hag. revert next out srv.
  induction fuel as [|fuel IH]; intros next out srv; simpl; [done|].
  rewrite Hag. destruct (List _ _ _ srv) as [srv1 [e|p]]; [done|].
  destruct (String.eqb (GetContinue p) ""); [done | apply IH].
Qed.

(** X12. Every request [queryAPI] sends is for the group, version and
    resource name of the resource type, in the namespace it was given, with
    limit 250: when the loop ends, the server's log holds exactly such
    requests, the first with the empty cursor, at most as many as the bound
    allows, and logging does not change the result; and, whether or not the
    loop ends, the outcome is the same against any two servers that answer
    those requests alike. *)
Theorem queryAPI_requests (fuel : nat) (api : apiResource) (ns : string) :
  let target := {| gvrGroup := Group (gv api); gvrVersion := Version (gv api);
                   gvrResource := Name (r api) |} in
  (forall srv srv' log0 log res,
     queryAPI (recorded List) fuel api ns (srv, log0) = Some ((srv', log), res) ->
     queryAPI List fuel api ns srv = Some (srv', res) /\
     exists cursors,
       log = log0 ++
             map (fun c => ({| gvrGroup := Group (gv api);
                               gvrVersion := Version (gv api);
                               gvrResource := Name (r api) |}, ns,
                            {| Limit := 250; Continue := c |}))
                 ("" :: cursors) /\
       (S (length cursors) <= fuel)%nat) /\
  (forall (List' : GroupVersionResource -> string -> ListOptions -> Server ->
                   Server * (error + UnstructuredList)) srv,
     (forall c s, List' target ns {| Limit := 250; Continue := c |} s =
                  List target ns {| Limit := 250; Continue := c |} s) ->
     queryAPI List' fuel api ns srv = queryAPI List fuel api ns srv).
Proof.
  intros target. subst target. split.
  - intros srv srv' log0 log res (Hq & cursors & Hlog & Hlen)%queryAPI_loop_recorded.
    split; [done|]. by exists cursors.
  - intros List' srv Hag. by apply queryAPI_loop_agree.
Qed.
End QueryAPIAnyServer.

Lemma queryAPI_all_or_nothing_witness :
  queryAPI brokenList 7 coreServicesType "ns1" [] =
    Some (servicesRequests [""; "C1"; "C2"]%string,
          ([], Some (ErrListing
                       {| gvrGroup := ""; gvrVersion := "v1";
                          gvrResource := "services" |}
                       (External "connection reset")))) /\
  exists pages srv0 e,
    answers brokenList servicesV1 "ns1" [] "" pages srv0 /\
    brokenList servicesV1 "ns1"
      {| Limit := 250; Continue := cursorAfter "" pages |} srv0 =
      (servicesRequests [""; "C1"; "C2"]%string, inl e) /\
    e = External "connection reset".
Proof.
  assert (queryAPI brokenList 7 coreServicesType "ns1" [] =
          Some (servicesRequests [""; "C1"; "C2"]%string,
                ([], Some (ErrListing
                             {| gvrGroup := ""; gvrVersion := "v1";
                                gvrResource := "services" |}
                             (External "connection reset"))))) as H.
  { vm_compute. reflexivity. }
  split; [exact H|].
  destruct (queryAPI_all_or_nothing brokenList 7 coreServicesType "ns1" [])
    as [Herr _].
  destruct (Herr _ _ _ H) as (_ & pages & srv0 & e & Hans & _ & Hl & He).
  exists pages, srv0, e. split; [exact Hans|]. split; [exact Hl|].
  by injection He.
Defined.

Lemma queryAPI_runs_while_cursor_witness :
  queryAPI stuckList 1000 coreServicesType "ns1" 0%nat = None.
Proof.
  apply (queryAPI_runs_while_cursor stuckList (fun _ => True)); [|exact I].
  intros s c _. exists (S s). eexists. split; [reflexivity|]. by split.
Defined.

Lemma queryAPI_requests_witness :
  queryAPI (recorded pagedList) 5 coreServicesType "ns1" ([], []) =
    Some ((servicesRequests [""; "C1"; "C2"]%string,
           [ ({| gvrGroup := ""; gvrVersion := "v1"; gvrResource := "services" |},
              "ns1"%string, {| Limit := 250; Continue := "" |});
             ({| gvrGroup := ""; gvrVersion := "v1"; gvrResource := "services" |},
              "ns1"%string, {| Limit := 250; Continue := "C1" |});
             ({| gvrGroup := ""; gvrVersion := "v1"; gvrResource := "services" |},
              "ns1"%string, {| Limit := 250; Continue := "C2" |}) ]),
          ([objA; objB; objC; objD], None)) /\
  queryAPI pagedList 5 coreServicesType "ns1" [] =
    Some (servicesRequests [""; "C1"; "C2"]%string,
          ([objA; objB; objC; objD], None)).
Proof.
  assert (queryAPI (recorded pagedList) 5 coreServicesType "ns1" ([], []) =
    Some ((servicesRequests [""; "C1"; "C2"]%string,
           [ ({| gvrGroup := ""; gvrVersion := "v1"; gvrResource := "services" |},
              "ns1"%string, {| Limit := 250; Continue := "" |});
             ({| gvrGroup := ""; gvrVersion := "v1"; gvrResource := "services" |},
              "ns1"%string, {| Limit := 250; Continue := "C1" |});
             ({| gvrGroup := ""; gvrVersion := "v1"; gvrResource := "services" |},
              "ns1"%string, {| Limit := 250; Continue := "C2" |}) ]),
          ([objA; objB; objC; objD], None))) as H.
  { vm_compute. reflexivity. }
  split; [exact H|].
  destruct (queryAPI_requests pagedList 5 coreServicesType "ns1") as [Hlog _].
  exact (proj1 (Hlog _ _ _ _ _ H)).
Defined.

(** ** [getAllResources] and the order of completion *)

Lemma lastError_app query ns e l1 l2 :
  lastError query ns e (l1 ++ l2) = lastError query ns (lastError query ns e l1) l2.
Proof. unfold lastError. apply foldl_app. Qed.

Lemma lastError_all_ok query ns e l :
  Forall (fun b => (query b ns).2 = None) l -> lastError query ns e l = e.
Proof.
  unfold lastError. induction 1 as [|b l Hb _ IH]; simpl; [done|]. by rewrite Hb.
Qed.

Lemma succeededItems_perm query ns l1 l2 :
  l1 ≡ₚ l2 -> succeededItems query ns l1 ≡ₚ succeededItems query ns l2.
Proof. intros H. unfold succeededItems. by apply Permutation_flat_map. Qed.

Lemma lastError_None_perm query ns l1 l2 :
  l1 ≡ₚ l2 ->
  lastError query ns None l1 = None <-> lastError query ns None l2 = None.
Proof. intros H. rewrite !lastError_None. by rewrite H. Qed.

(** X13. Whatever the order in which the goroutines complete, the records
    returned by [getAllResources] are the same up to order, and an error is
    returned under one order exactly when under any other. *)
Theorem getAllResources_any_order
    (query : apiResource -> string -> list Unstructured * option error)
    (s1 s2 : list apiResource -> list apiResource)
    (apis : list apiResource) (ns : string) :
  scheduler s1 -> scheduler s2 ->
  (getAllResources query s1 apis ns).1 ≡ₚ (getAllResources query s2 apis ns).1 /\
  length (getAllResources query s1 apis ns).1 =
    length (getAllResources query s2 apis ns).1 /\
  ((getAllResources query s1 apis ns).2 = None <->
   (getAllResources query s2 apis ns).2 = None).
Proof.
  intros H1 H2. rewrite !getAllResources_unfold. simpl.
  assert (s1 (dispatched apis) ≡ₚ s2 (dispatched apis)) as Hp.
  { by rewrite (H1 _), (H2 _). }
  pose proof (succeededItems_perm query ns _ _ Hp) as Hitems.
  split; [done|]. split; [by rewrite Hitems|]. by apply lastError_None_perm.
Qed.

Lemma getAllResources_any_order_witness :
  scheduler (fun l => l) /\ scheduler (@reverse apiResource) /\
  (getAllResources healthyQuery (fun l => l) (rm_list sampleCatalog) "ns1").1 ≡ₚ
  (getAllResources healthyQuery reverse (rm_list sampleCatalog) "ns1").1.
Proof.
  assert (scheduler (fun l => l)) as H1 by (intros l; reflexivity).
  assert (scheduler (@reverse apiResource)) as H2.
  { intros l. apply reverse_Permutation. }
  split; [exact H1|]. split; [exact H2|].
  apply (getAllResources_any_order healthyQuery _ _ _ "ns1" H1 H2).
Defined.

(** X14. The error [getAllResources] returns is the one stored last: that of
    the failing fetch after which, in the order of completion, every fetch
    succeeded.  With two failing fetches the error therefore depends on the
    order in which they complete. *)
Theorem getAllResources_last_error_wins
    (query : apiResource -> string -> list Unstructured * option error)
    (sched : list apiResource -> list apiResource)
    (apis : list apiResource) (ns : string)
    (pre post : list apiResource) (a : apiResource) (e : error) :
  sched (dispatched apis) = pre ++ a :: post ->
  (query a ns).2 = Some e ->
  Forall (fun b => (query b ns).2 = None) post ->
  (getAllResources query sched apis ns).2 = Some e.
Proof.
  intros Hs Ha Hpost. rewrite getAllResources_unfold. simpl.
  rewrite Hs, lastError_app. unfold lastError at 1. simpl. rewrite Ha.
  by apply lastError_all_ok.
Qed.

Lemma getAllResources_last_error_wins_witness :
  (getAllResources failingQuery (fun l => l)
     [coreServicesType; appsDeploymentsType] "ns1").2 =
    Some (ErrListing (GVR appsDeploymentsType) (External "connection reset")) /\
  (getAllResources failingQuery reverse
     [coreServicesType; appsDeploymentsType] "ns1").2 =
    Some (ErrListing (GVR coreServicesType) (External "timeout")).
Proof.
  split.
  - apply (getAllResources_last_error_wins failingQuery (fun l => l) _ "ns1"
             [coreServicesType] [] appsDeploymentsType); [reflexivity.. | constructor].
  - apply (getAllResources_last_error_wins failingQuery reverse _ "ns1"
             [appsDeploymentsType] [] coreServicesType); [reflexivity.. | constructor].
Defined.

Lemma dispatched_none apis :
  (forall a, a ∈ apis -> Namespaced (r a) = false) -> dispatched apis = [].
Proof.
  intros H. unfold dispatched. induction apis as [|a apis IH]; [done|].
  rewrite filter_cons_False.
  - apply IH. intros b Hb. apply H. by right.
  - rewrite (H a) by left. done.
Qed.

Lemma report_nothing_fetched obj : report obj [] = ([Line noOwnedMessage], None).
Proof. apply report_empty. by rewrite childrenOf_newObjectDirectory. Qed.

(** X15. When no resource type is namespace-scoped (or there is none at
    all) [getAllResources] returns no records and no error without fetching
    anything, and a [run] that reaches it reports that no resources are
    owned, whatever the cluster holds. *)
Theorem getAllResources_nothing_namespaced
    (query : apiResource -> string -> list Unstructured * option error)
    (sched : list apiResource -> list apiResource)
    (apis : list apiResource) (ns : string) :
  scheduler sched ->
  (forall a, a ∈ apis -> Namespaced (r a) = false) ->
  getAllResources query sched apis ns = ([], None) /\
  (forall P dc Get kind name rmap api obj,
     findAPIs P dc = inr rmap -> resources rmap = apis ->
     resolveKind kind rmap = inr api ->
     Get (GVR api) (if Namespaced (r api) then Some ns else None) name = inr obj ->
     run P dc Get query sched kind name ns = ([Line noOwnedMessage], None)).
Proof.
  intros Hs Hno.
  assert (getAllResources query sched apis ns = ([], None)) as Hall.
  { unfold getAllResources. rewrite dispatched_none by done.
    pose proof (Hs []) as Hn. apply Permutation_nil_r in Hn. by rewrite Hn. }
  split; [done|].
  intros P dc Get kind name rmap api obj Hf Hr Hk Hg. unfold run.
  rewrite Hf, Hk, Hg, Hr, Hall. apply report_nothing_fetched.
Qed.

Lemma getAllResources_nothing_namespaced_witness :
  run parseGroupVersion nodesDiscovery
      (fun _ _ _ => inr objA) ownedQuery (fun l => l) "node" "worker-1" "ns1"
  = ([Line noOwnedMessage], None).
Proof.
  assert (scheduler (fun l => l)) as Hs by (intros l; reflexivity).
  destruct (getAllResources_nothing_namespaced ownedQuery (fun l => l)
              [coreNodesType] "ns1" Hs) as [_ H].
  - intros a Ha%list_elem_of_singleton. by subst a.
  - eapply H; reflexivity.
Defined.

(** ** [run]: failures and the order of completion *)

Lemma findAPIs_groups_error P resList rm e :
  findAPIs_groups P resList rm = inl e ->
  exists s cause, e = ErrParseGroupVersion s cause.
Proof.
  revert rm. induction resList as [|g l IH]; intros rm; simpl; [done|].
  destruct (P (GroupVersionString g)) as [err|gv].
  - intros [= <-]. eauto.
  - apply IH.
Qed.

Lemma findAPIs_error P dc e kind name :
  findAPIs P dc = inl e -> runError kind name e.
Proof.
  destruct dc as [resList [err|]]; simpl.
  - by intros [= <-].
  - by intros (s & cause & ->)%findAPIs_groups_error.
Qed.

Lemma resolveKind_error kind apis e name :
  resolveKind kind apis = inl e -> runError kind name e.
Proof.
  unfold resolveKind. destruct (overrideType kind apis) as [k []]; [done|].
  destruct (lookup apis kind) as [|a [|b l]]; [|done|]; by intros [= <-].
Qed.

(** X16. Every error [run] returns carries the context of the stage that
    failed (discovery, parsing, the kind as typed, the kind and name of the
    root object, or the fleet query): never a bare client or listing error.
    Discovery and resolution failures do not depend on any object of the
    cluster, and a failure to get the root object does not depend on the
    fleet fetch. *)
Theorem run_errors_carry_context
    (P : string -> error + GroupVersion)
    (dc : list APIResourceList * option error)
    (Get : GroupVersionResource -> option string -> string -> error + Unstructured)
    (query : apiResource -> string -> list Unstructured * option error)
    (sched : list apiResource -> list apiResource)
    (kind name ns : string) :
  (forall e, (run P dc Get query sched kind name ns).2 = Some e ->
             runError kind name e /\ (run P dc Get query sched kind name ns).1 = []) /\
  (forall e, findAPIs P dc = inl e ->
     forall Get' query' sched',
       run P dc Get' query' sched' kind name ns = ([], Some e)) /\
  (forall rmap e, findAPIs P dc = inr rmap -> resolveKind kind rmap = inl e ->
     forall Get' query' sched',
       run P dc Get' query' sched' kind name ns = ([], Some e)) /\
  (forall rmap api e, findAPIs P dc = inr rmap -> resolveKind kind rmap = inr api ->
     Get (GVR api) (if Namespaced (r api) then Some ns else None) name = inl e ->
     forall query' sched',
       run P dc Get query' sched' kind name ns = ([], Some (ErrGet kind name e))).
Proof.
  split_and!.
  - intros e. unfold run.
    destruct (findAPIs P dc) as [err|apis] eqn:Hf.
    { intros [= <-]. split; [by eapply findAPIs_error | done]. }
    destruct (resolveKind kind apis) as [err|api] eqn:Hr.
    { intros [= <-]. split; [by eapply resolveKind_error | done]. }
    destruct (Get _ _ _) as [err|obj].
    { by intros [= <-]. }
    destruct (getAllResources _ _ _ _) as [apiObjects [err|]].
    { by intros [= <-]. }
    by destruct (report_cases obj apiObjects) as [-> | ->].
  - intros e Hf Get' query' sched'. unfold run. by rewrite Hf.
  - intros rmap e Hf Hr Get' query' sched'. unfold run. by rewrite Hf, Hr.
  - intros rmap api e Hf Hr Hg query' sched'. unfold run. by rewrite Hf, Hr, Hg.
Qed.

Lemma run_errors_carry_context_witness :
  run parseGroupVersion workloadDiscovery getPetc sampleQuery (fun l => l)
      "workload" "missing" "ns1" =
  ([], Some (ErrGet "workload" "missing" (External "not found"))).
Proof.
  destruct (run_errors_carry_context parseGroupVersion workloadDiscovery getPetc
              lonelyQuery reverse "workload" "missing" "ns1") as (_ & _ & _ & H).
  eapply H; reflexivity.
Defined.

Lemma report_message_iff obj apiObjects :
  report obj apiObjects = ([Line noOwnedMessage], None) <->
  childrenOf (newObjectDirectory apiObjects) (GetUID obj) = ∅.
Proof.
  split; [|apply report_empty].
  intros H. destruct (decide (childrenOf (newObjectDirectory apiObjects) (GetUID obj) = ∅))
    as [|Hne]; [done|].
  by rewrite report_owned in H.
Qed.

Lemma report_no_error obj apiObjects : (report obj apiObjects).2 = None.
Proof. by destruct (report_cases obj apiObjects) as [-> | ->]. Qed.

Lemma childrenOf_perm l1 l2 x :
  l1 ≡ₚ l2 ->
  childrenOf (newObjectDirectory l1) x = childrenOf (newObjectDirectory l2) x.
Proof.
  intros Hp. rewrite !childrenOf_newObjectDirectory.
  apply list_to_set_perm_L. by rewrite Hp.
Qed.

(** X17. Whether [run] fails, and whether it reports that no resources are
    owned, does not depend on the order in which the fetches complete. *)
Theorem run_outcome_any_order
    (P : string -> error + GroupVersion)
    (dc : list APIResourceList * option error)
    (Get : GroupVersionResource -> option string -> string -> error + Unstructured)
    (query : apiResource -> string -> list Unstructured * option error)
    (s1 s2 : list apiResource -> list apiResource)
    (kind name ns : string) :
  scheduler s1 -> scheduler s2 ->
  ((run P dc Get query s1 kind name ns).2 = None <->
   (run P dc Get query s2 kind name ns).2 = None) /\
  (run P dc Get query s1 kind name ns = ([Line noOwnedMessage], None) <->
   run P dc Get query s2 kind name ns = ([Line noOwnedMessage], None)).
Proof.
  intros H1 H2. unfold run.
  destruct (findAPIs P dc) as [err|apis]; [done|].
  destruct (resolveKind kind apis) as [err|api]; [done|].
  destruct (Get _ _ _) as [err|obj]; [done|].
  rewrite !getAllResources_unfold.
  assert (s1 (dispatched (resources apis)) ≡ₚ s2 (dispatched (resources apis))) as Hp.
  { by rewrite (H1 _), (H2 _). }
  pose proof (lastError_None_perm query ns _ _ Hp) as Herr.
  pose proof (succeededItems_perm query ns _ _ Hp) as Hitems.
  destruct (lastError query ns None (s1 _)) as [e1|] eqn:E1;
    destruct (lastError query ns None (s2 _)) as [e2|] eqn:E2.
  - done.
  - destruct Herr as [_ Herr]. by specialize (Herr eq_refl).
  - destruct Herr as [Herr _]. by specialize (Herr eq_refl).
  - rewrite !report_no_error, !report_message_iff.
    by rewrite (childrenOf_perm _ _ _ Hitems).
Qed.

Lemma run_outcome_any_order_witness :
  run parseGroupVersion workloadDiscovery getPetc lonelyQuery reverse
      "workload" "petc" "ns1" = ([Line noOwnedMessage], None).
Proof.
  assert (scheduler (fun l : list apiResource => l)) as H1 by (intros l; reflexivity).
  assert (scheduler (@reverse apiResource)) as H2.
  { intros l. apply reverse_Permutation. }
  destruct (run_outcome_any_order parseGroupVersion workloadDiscovery getPetc
              lonelyQuery (fun l => l) reverse "workload" "petc" "ns1" H1 H2)
    as [_ [H _]].
  apply H. vm_compute. reflexivity.
Defined.
